(** * Transport catalogue: persistence codec and map projection

    A shallow embedding of [serialization.cpp] (the protobuf codec of the
    catalogue, the renderer settings and the router's route table) and of
    the projection and colour-assignment code of [map_renderer.h], with
    the properties the specification states about them. *)

From Stdlib Require Import ZArith NArith Bool List Lia String.
From Stdlib Require Import SpecFloat.
From stdpp Require Import base option list gmap.

Local Open Scope nat_scope.

(** ** Machine data *)

(** [double]: IEEE-754 binary64, as the Standard Library specifies it
    ([prec = 53], [emax = 1024]).  A NaN carries no payload. *)
Definition double : Type := spec_float.

Definition prec : Z := 53.
Definition emax : Z := 1024.

Definition dadd : double -> double -> double := SFadd prec emax.
Definition dsub : double -> double -> double := SFsub prec emax.
Definition dmul : double -> double -> double := SFmul prec emax.
Definition ddiv : double -> double -> double := SFdiv prec emax.
Definition dltb : double -> double -> bool := SFltb.
Definition dleb : double -> double -> bool := SFleb.
Definition dabs : double -> double := SFabs.

(** The double nearest to a positive integer (an integer literal converted
    to [double]). *)
Definition dconst (m : positive) : double := binary_normalize prec emax (Zpos m) 0 false.

Definition dzero : double := S754_zero false.

Definition is_nan (x : double) : bool :=
  match x with S754_nan => true | _ => false end.

Definition is_zero (x : double) : bool :=
  match x with S754_zero _ => true | _ => false end.

(** Neither NaN nor an infinity. *)
Definition is_finite (x : double) : bool :=
  match x with S754_zero _ | S754_finite _ _ _ => true | _ => false end.

(** Equality of doubles as values: identical, or zeros of either sign
    (which C++ [==] does not tell apart). *)
Definition same_double (x y : double) : Prop :=
  x = y \/ (is_zero x = true /\ is_zero y = true).

(** [size_t] values (vertex and edge ids) are naturals; none of the code
    modelled here does arithmetic on them. *)
Definition EdgeId : Type := N.
Definition VertexId : Type := N.

(** ** Outcomes of a C++ call

    A call returns a value, leaves through an exception, or has undefined
    behaviour (an index past the end of a [std::vector], a modulo by
    zero). *)
Inductive Error : Type := InvalidVertex | InvalidWeight.

Inductive outcome (A : Type) : Type :=
| Returns (a : A)
| Throws (e : Error)
| Undefined.
Arguments Returns {A} a.
Arguments Throws {A} e.
Arguments Undefined {A}.

#[global] Instance outcome_ret : MRet outcome := fun A a => Returns a.

#[global] Instance outcome_bind : MBind outcome := fun A B k c =>
  match c with
  | Returns a => k a
  | Throws e => Throws e
  | Undefined => Undefined
  end.

(** ** Domain objects *)

(** [graph::Edge<double>]. *)
Record Edge : Type := mkEdge { from : VertexId; to : VertexId; weight : double }.

(** [Router::RouteInternalData]: the weight of the best known route and
    the last edge on it, if the route has more than its first hop. *)
Record RouteInternalData : Type := mkRoute {
  route_weight : double;
  route_prev_edge : option EdgeId
}.

(** [Router::RoutesInternalData]: one row per origin, one optional entry
    per destination. *)
Abbreviation RoutesInternalData := (list (list (option RouteInternalData))).

(** [transport_catalogue::RoutingSettings]. *)
Record RoutingSettings : Type := mkRoutingSettings {
  bus_wait_time : double;
  bus_velocity : double
}.

(** ** Protobuf messages *)

(** Modelled from the spec: the schema file of the messages is not part
    of the sources.  The message types have the fields
    [serialization.cpp] reads and writes; a message-typed field has
    presence ([has_x()]), hence an [option]; a repeated field is a list.
    Section 4.4 types the scalar fields of the graph and of the route
    table as [uint] and [float64]: a field holds the id or the double
    stored in it unchanged. *)
Module pb.

Record EdgeId : Type := mkEdgeId { id : N }.

Record RouteData : Type := mkRouteData {
  weight : double;
  prev_edge : option EdgeId
}.

Record Route : Type := mkRouteMsg { data : option RouteData }.

Record RouteList : Type := mkRouteList { route : list Route }.

Record Router : Type := mkRouter { route_list : list RouteList }.

Record Edge : Type := mkEdge { from : N; to : N; edge_weight : double }.

Record Graph : Type := mkGraph { vertex_count : N; edge : list Edge }.

Record RoutingSettings : Type := mkRoutingSettings {
  bus_wait_time : double;
  bus_velocity : double
}.

Record TransportRouter : Type := mkTransportRouter {
  routing_settings : RoutingSettings;
  router : Router
}.

Record Point : Type := mkPoint { x : double; y : double }.

Record Rgb : Type := mkRgb { red : N; green : N; blue : N }.

Record Rgba : Type := mkRgba {
  rgba_red : N; rgba_green : N; rgba_blue : N; opacity : double
}.

Record Color : Type := mkColor {
  name : string;
  rgb : option Rgb;
  rgba : option Rgba
}.

Record RenderSettings : Type := mkRenderSettings {
  width : double;
  height : double;
  padding : double;
  line_width : double;
  stop_radius : double;
  bus_label_font_size : Z;
  stop_label_font_size : Z;
  underlayer_width : double;
  bus_label_offset : Point;
  stop_label_offset : Point;
  underlayer_color : Color;
  color_palette : list Color
}.

Record MapRenderer : Type := mkMapRenderer { render_settings : RenderSettings }.

(** [Database]; the [TransportCatalogue] message is a parameter, its
    decoder being written against the catalogue class. *)
Record Database (TC : Type) : Type := mkDatabase {
  transport_catalogue : TC;
  map_renderer : MapRenderer;
  transport_router : TransportRouter
}.
Arguments mkDatabase {TC} _ _ _.
Arguments transport_catalogue {TC} _.
Arguments map_renderer {TC} _.
Arguments transport_router {TC} _.

Definition has_data (r : Route) : bool :=
  match data r with Some _ => true | None => false end.
Definition has_prev_edge (d : RouteData) : bool :=
  match prev_edge d with Some _ => true | None => false end.

End pb.

(** ** The route table codec *)

(** The body of the inner loop of [Serialize(const Router&)]: one [Route]
    message per entry, with [data] set only for a present entry and
    [prev_edge] set only for a present predecessor. *)
Definition Serialize_route (route : option RouteInternalData) : pb.Route :=
  match route with
  | Some r =>
      pb.mkRouteMsg (Some (pb.mkRouteData (route_weight r)
        (match route_prev_edge r with
         | Some e => Some (pb.mkEdgeId e)
         | None => None
         end)))
  | None => pb.mkRouteMsg None
  end.

(** [details::Serialize(const TransportRouter::Router&)]. *)
Definition Serialize_Router (routes : RoutesInternalData) : pb.Router :=
  pb.mkRouter (map (fun row => pb.mkRouteList (map Serialize_route row)) routes).

(** What the decoder builds from a [Route] whose [data] is present. *)
Definition decode_data (route_data : pb.RouteData) : RouteInternalData :=
  let prev_edge :=
    match pb.prev_edge route_data with
    | Some e => Some (pb.id e)
    | None => None
    end in
  mkRoute (pb.weight route_data) prev_edge.

(** [data[from_id][to_id] = v] on a vector of vectors: an index past the
    end is undefined behaviour. *)
Definition assign (data : RoutesInternalData) (from_id to_id : nat)
    (v : RouteInternalData) : outcome RoutesInternalData :=
  match data !! from_id with
  | Some row =>
      if decide (to_id < length row)
      then Returns (<[from_id := <[to_id := Some v]> row]> data)
      else Undefined
  | None => Undefined
  end.

(** The inner loop of [Deserialize(const Router&)], from [to_id] on, over
    the routes not yet visited. *)
Fixpoint decode_routes (routes : list pb.Route) (from_id to_id : nat)
    (data : RoutesInternalData) : outcome RoutesInternalData :=
  match routes with
  | [] => Returns data
  | route :: rest =>
      data' ← (match pb.data route with
                | Some route_data => assign data from_id to_id (decode_data route_data)
                | None => Returns data
                end);
      decode_routes rest from_id (S to_id) data'
  end.

(** The outer loop, from [from_id] on, over the rows not yet visited. *)
Fixpoint decode_rows (rows : list pb.RouteList) (from_id : nat)
    (data : RoutesInternalData) : outcome RoutesInternalData :=
  match rows with
  | [] => Returns data
  | route_list :: rest =>
      data' ← decode_routes (pb.route route_list) from_id 0 data;
      decode_rows rest (S from_id) data'
  end.

(** [details::Deserialize(const Router&)]: a square table of absent
    entries, sized by the number of rows, then filled row by row. *)
Definition Deserialize_Router (object : pb.Router) : outcome RoutesInternalData :=
  let vertex_count := length (pb.route_list object) in
  let data := replicate vertex_count (replicate vertex_count None) in
  decode_rows (pb.route_list object) 0 data.

(** A route table as a router holds it: as many entries in every row as
    there are rows. *)
Definition square (t : RoutesInternalData) : Prop :=
  Forall (fun row => length row = length t) t.

(** Entry [(from, to)] of a table; [None] both for an absent entry and for
    a pair outside the table. *)
Definition entry (t : RoutesInternalData) (from_id to_id : nat) : option RouteInternalData :=
  row ← t !! from_id; mjoin (row !! to_id).

(** Every predecessor edge id a [Router] message carries. *)
Definition pred_ids (object : pb.Router) : list N :=
  row ← pb.route_list object;
  route ← pb.route row;
  match pb.data route with
  | Some d => match pb.prev_edge d with Some e => [pb.id e] | None => [] end
  | None => []
  end.

(** No row carries data at or past column [n]: the rows the decoder can
    fill without leaving a vector of [n] entries. *)
Definition row_within (n : nat) (row : pb.RouteList) : bool :=
  forallb (fun route => negb (pb.has_data route)) (drop n (pb.route row)).

Definition rows_within (object : pb.Router) : bool :=
  forallb (row_within (length (pb.route_list object))) (pb.route_list object).

(** The same, by index. *)
Definition row_fits (n : nat) (row : pb.RouteList) : Prop :=
  forall to_id route, pb.route row !! to_id = Some route ->
    pb.has_data route = true -> to_id < n.

(** ** The graph and its codec *)

(** Modelled from the spec: [graph.h] (the class behind
    [TransportRouter::Graph]) is not part of the sources.  Section 4.1: a
    graph is built with its vertex count; [add_edge] appends an edge and
    returns its id, failing with [InvalidVertex] when an endpoint is not
    below the vertex count and with [InvalidWeight] when the weight is
    negative or not finite; edges are never removed or changed. *)
Record Graph : Type := mkGraph {
  graph_vertex_count : N;
  graph_edges : list Edge
}.

Definition new_Graph (vertex_count : N) : Graph := mkGraph vertex_count [].

Definition GetVertexCount (g : Graph) : N := graph_vertex_count g.
Definition GetEdgeCount (g : Graph) : nat := length (graph_edges g).

(** A weight [add_edge] takes: a zero or a positive finite number. *)
Definition valid_weight (w : double) : bool :=
  match w with
  | S754_zero _ => true
  | S754_finite false _ _ => true
  | _ => false
  end.

Definition AddEdge (g : Graph) (e : Edge) : outcome (Graph * EdgeId) :=
  if negb (from e <? GetVertexCount g)%N || negb (to e <? GetVertexCount g)%N
  then Throws InvalidVertex
  else if negb (valid_weight (weight e)) then Throws InvalidWeight
  else Returns (mkGraph (graph_vertex_count g) (graph_edges g ++ [e]),
                N.of_nat (GetEdgeCount g)).

(** [GetEdge(edge_id)]; an id past the last edge is outside its contract. *)
Definition GetEdge (g : Graph) (edge_id : nat) : outcome Edge :=
  match graph_edges g !! edge_id with
  | Some e => Returns e
  | None => Undefined
  end.

(** What every graph built through [new_Graph] and [AddEdge] satisfies. *)
Definition graph_ok (g : Graph) : Prop :=
  Forall (fun e => (from e < graph_vertex_count g)%N /\
                   (to e < graph_vertex_count g)%N /\
                   valid_weight (weight e) = true) (graph_edges g).

(** The [Edge] message [Serialize(const Graph&)] writes for an edge. *)
Definition Serialize_Edge (edge : Edge) : pb.Edge :=
  pb.mkEdge (from edge) (to edge) (weight edge).

(** The loop of [Serialize(const Graph&)]: [count] more edges from
    [edge_id] on, each appended to the message. *)
Fixpoint serialize_edges (g : Graph) (edge_id count : nat) : outcome (list pb.Edge) :=
  match count with
  | O => Returns []
  | S count' =>
      edge ← GetEdge g edge_id;
      rest ← serialize_edges g (S edge_id) count';
      Returns (Serialize_Edge edge :: rest)
  end.

(** [details::Serialize(const TransportRouter::Graph&)]. *)
Definition Serialize_Graph (g : Graph) : outcome pb.Graph :=
  edges ← serialize_edges g 0 (GetEdgeCount g);
  Returns (pb.mkGraph (GetVertexCount g) edges).

(** The loop of [Deserialize(const Graph&)] over the edges of the message
    not yet added. *)
Fixpoint add_edges (edges : list pb.Edge) (g : Graph) : outcome Graph :=
  match edges with
  | [] => Returns g
  | edge :: rest =>
      r ← AddEdge g (mkEdge (pb.from edge) (pb.to edge) (pb.edge_weight edge));
      add_edges rest (fst r)
  end.

(** [details::Deserialize(const Graph&)]. *)
Definition Deserialize_Graph (object : pb.Graph) : outcome Graph :=
  add_edges (pb.edge object) (new_Graph (pb.vertex_count object)).

(** ** Routing settings, the transport router and their codec *)

(** Modelled from the spec: the macros [SET_X(src, dst, f)] and
    [GET_X(src, dst, f)] come from [serialization.h], which is not part of
    the sources.  With the lossless codec of section 4.4 they copy field
    [f]: [dst.set_f(src.f)] and [dst.f = src.f()]. *)
Definition Serialize_RoutingSettings (routing_settings : RoutingSettings)
    : pb.RoutingSettings :=
  pb.mkRoutingSettings (bus_wait_time routing_settings) (bus_velocity routing_settings).

Definition Deserialize_RoutingSettings (object : pb.RoutingSettings) : RoutingSettings :=
  mkRoutingSettings (pb.bus_wait_time object) (pb.bus_velocity object).

(** [TransportRouter::Router], seen through [GetRoutesRange()]. *)
Record Router : Type := mkRouter { GetRoutesRange : RoutesInternalData }.

(** [transport_catalogue::TransportRouter]: its settings, its graph and
    its router. *)
Record TransportRouter : Type := mkTransportRouter {
  GetSettings : RoutingSettings;
  GetGraph : Graph;
  GetRouter : Router
}.

(** [details::Serialize(const transport_catalogue::TransportRouter&)]. *)
Definition Serialize_TransportRouter (transport_router : TransportRouter)
    : pb.TransportRouter :=
  pb.mkTransportRouter
    (Serialize_RoutingSettings (GetSettings transport_router))
    (Serialize_Router (GetRoutesRange (GetRouter transport_router))).

(** ** Render settings and their codec *)

Record Point : Type := mkPoint { x : double; y : double }.

(** [svg::Rgb], [svg::Rgba]: channels are [uint8_t]. *)
Record Rgb : Type := mkRgb { red : N; green : N; blue : N }.
Record Rgba : Type := mkRgba { rgba_red : N; rgba_green : N; rgba_blue : N; opacity : double }.

(** [svg::Color], with the alternatives the codec handles. *)
Inductive Color : Type :=
| ColorName (name : string)
| ColorRgb (c : Rgb)
| ColorRgba (c : Rgba).

(** [renderer::RenderSettings]. *)
Record RenderSettings : Type := mkRenderSettings {
  width : double;
  height : double;
  padding : double;
  line_width : double;
  stop_radius : double;
  bus_label_font_size : Z;
  bus_label_offset : Point;
  stop_label_font_size : Z;
  stop_label_offset : Point;
  underlayer_color : Color;
  underlayer_width : double;
  color_palette : list Color
}.

(** [renderer::MapRenderer]. *)
Record MapRenderer : Type := mkMapRenderer { GetSetings : RenderSettings }.

(** [static_cast<uint8_t>]. *)
Definition to_uint8 (v : N) : N := (v mod 256)%N.

Definition Serialize_Point (point : Point) : pb.Point := pb.mkPoint (x point) (y point).
Definition Deserialize_Point (object : pb.Point) : Point := mkPoint (pb.x object) (pb.y object).

Definition Serialize_Rgb (rgb : Rgb) : pb.Rgb := pb.mkRgb (red rgb) (green rgb) (blue rgb).
Definition Serialize_Rgba (rgba : Rgba) : pb.Rgba :=
  pb.mkRgba (rgba_red rgba) (rgba_green rgba) (rgba_blue rgba) (opacity rgba).

Definition Deserialize_Rgb (object : pb.Rgb) : Rgb :=
  mkRgb (to_uint8 (pb.red object)) (to_uint8 (pb.green object)) (to_uint8 (pb.blue object)).
Definition Deserialize_Rgba (object : pb.Rgba) : Rgba :=
  mkRgba (to_uint8 (pb.rgba_red object)) (to_uint8 (pb.rgba_green object))
         (to_uint8 (pb.rgba_blue object)) (pb.opacity object).

Definition Serialize_Color (color : Color) : pb.Color :=
  match color with
  | ColorName s => pb.mkColor s None None
  | ColorRgb c => pb.mkColor EmptyString (Some (Serialize_Rgb c)) None
  | ColorRgba c => pb.mkColor EmptyString None (Some (Serialize_Rgba c))
  end.

Definition Deserialize_Color (object : pb.Color) : Color :=
  match pb.rgba object with
  | Some c => ColorRgba (Deserialize_Rgba c)
  | None =>
      match pb.rgb object with
      | Some c => ColorRgb (Deserialize_Rgb c)
      | None => ColorName (pb.name object)
      end
  end.

Definition Serialize_RenderSettings (render_settings : RenderSettings) : pb.RenderSettings :=
  pb.mkRenderSettings
    (width render_settings) (height render_settings) (padding render_settings)
    (line_width render_settings) (stop_radius render_settings)
    (bus_label_font_size render_settings) (stop_label_font_size render_settings)
    (underlayer_width render_settings)
    (Serialize_Point (bus_label_offset render_settings))
    (Serialize_Point (stop_label_offset render_settings))
    (Serialize_Color (underlayer_color render_settings))
    (map Serialize_Color (color_palette render_settings)).

Definition Deserialize_RenderSettings (object : pb.RenderSettings) : RenderSettings :=
  mkRenderSettings
    (pb.width object) (pb.height object) (pb.padding object)
    (pb.line_width object) (pb.stop_radius object)
    (pb.bus_label_font_size object)
    (Deserialize_Point (pb.bus_label_offset object))
    (pb.stop_label_font_size object)
    (Deserialize_Point (pb.stop_label_offset object))
    (Deserialize_Color (pb.underlayer_color object))
    (pb.underlayer_width object)
    (map Deserialize_Color (pb.color_palette object)).

Definition Serialize_MapRenderer (map_renderer : MapRenderer) : pb.MapRenderer :=
  pb.mkMapRenderer (Serialize_RenderSettings (GetSetings map_renderer)).

Definition Deserialize_MapRenderer (object : pb.MapRenderer) : MapRenderer :=
  mkMapRenderer (Deserialize_RenderSettings (pb.render_settings object)).

(** ** The whole database *)

(** What the codec takes from outside this file: the catalogue class with
    the codec written against it, the builder that turns a catalogue into
    a graph, and protobuf's own writer and parser of a [Database]. *)
Class Collaborators : Type := {
  Catalogue : Type;
  CatalogueMsg : Type;
  Serialize_TransportCatalogue : Catalogue -> CatalogueMsg;
  Deserialize_TransportCatalogue : CatalogueMsg -> outcome Catalogue;
  BuildGraph : RoutingSettings -> Catalogue -> Graph;
  Stream : Type;
  SerializeToOstream : pb.Database CatalogueMsg -> Stream;
  ParseFromIstream : Stream -> option (pb.Database CatalogueMsg)
}.

(** Modelled from the spec: the constructor
    [TransportRouter(settings, router_data, catalogue)] lives in a source
    file that is not present.  Section 2: a router is reconstructed from a
    previously saved table without rerunning the precomputation; the
    graph comes from the catalogue through the builder of section 4.2. *)
Definition TransportRouter_restore `{Collaborators} (settings : RoutingSettings)
    (router_data : RoutesInternalData) (catalogue : Catalogue) : TransportRouter :=
  mkTransportRouter settings (BuildGraph settings catalogue) (mkRouter router_data).

(** [details::Deserialize(const TransportRouter&, const TransportCatalogue&)]. *)
Definition Deserialize_TransportRouter `{Collaborators} (object : pb.TransportRouter)
    (catalogue : Catalogue) : outcome TransportRouter :=
  router_data ← Deserialize_Router (pb.router object);
  mret (TransportRouter_restore
          (Deserialize_RoutingSettings (pb.routing_settings object))
          router_data catalogue).

Record DeserializeResult `{Collaborators} : Type := mkDeserializeResult {
  result_catalogue : Catalogue;
  result_map_renderer : MapRenderer;
  result_transport_router : TransportRouter
}.

(** [transport_catalogue_serialize::Serialize]. *)
Definition Serialize `{Collaborators} (transport_catalogue : Catalogue)
    (map_renderer : MapRenderer) (transport_router : TransportRouter) : Stream :=
  SerializeToOstream
    (pb.mkDatabase (Serialize_TransportCatalogue transport_catalogue)
                   (Serialize_MapRenderer map_renderer)
                   (Serialize_TransportRouter transport_router)).

(** [transport_catalogue_serialize::Deserialize]: [Returns None] is the
    empty optional. *)
Definition Deserialize `{Collaborators} (input : Stream) : outcome (option DeserializeResult) :=
  match ParseFromIstream input with
  | None => mret None
  | Some database =>
      transport_catalogue ← Deserialize_TransportCatalogue (pb.transport_catalogue database);
      transport_router ←
        Deserialize_TransportRouter (pb.transport_router database) transport_catalogue;
      let map_renderer := Deserialize_MapRenderer (pb.map_renderer database) in
      mret (Some (mkDeserializeResult _ transport_catalogue map_renderer transport_router))
  end.

(** ** The sphere projector of [map_renderer.h] *)

(** [geo::Coordinates]. *)
Record Coordinates : Type := mkCoordinates { lat : double; lng : double }.

(** [EPSILON = 1e-6]: the double nearest to it,
    [4722366482869645 * 2^-72]. *)
Definition EPSILON : double := S754_finite false 4722366482869645 (-72).

(** [IsZero]. *)
Definition IsZero (value : double) : bool := dltb (dabs value) EPSILON.

(** [std::minmax_element] over a non-empty range, by values, as libstdc++
    computes it ([__minmax_element] of bits/stl_algo.h).  After the first
    two elements the loop takes the elements two at a time: the smaller
    of a pair is compared with [min] and the larger with [max]; an element
    left alone at the end is compared with both.  For a comparison that
    orders the range this gives the first of the smallest elements and
    the last of the largest ones; with a NaN among the values compared the
    result depends on this order of comparisons.

    [minmax_from] is the loop, entered with the [min] and [max] found so
    far and the elements still to visit. *)
Fixpoint minmax_from {A} (comp : A -> A -> bool) (min max : A) (range : list A) : A * A :=
  match range with
  | [] => (min, max)
  | [first] =>
      if comp first min then (first, max)
      else if negb (comp first max) then (min, first)
      else (min, max)
  | first :: next :: rest =>
      if comp next first
      then minmax_from comp (if comp next min then next else min)
                            (if negb (comp first max) then first else max) rest
      else minmax_from comp (if comp first min then first else min)
                            (if negb (comp next max) then next else max) rest
  end.

Definition minmax_element {A} (comp : A -> A -> bool) (first : A) (range : list A) : A * A :=
  match range with
  | [] => (first, first)
  | next :: rest =>
      if comp next first then minmax_from comp next first rest
      else minmax_from comp first next rest
  end.

(** [std::min(a, b)]. *)
Definition dmin (a b : double) : double := if dltb b a then b else a.

(** [if (!IsZero(spread)) zoom = extent / spread;] on an optional that
    starts empty: the only division the constructor performs. *)
Definition guarded_zoom (extent spread : double) : option double :=
  if negb (IsZero spread) then Some (ddiv extent spread) else None.

(** [max_lon - min_lon_] and [max_lat_ - min_lat] of a non-empty range. *)
Definition lon_spread (first : Coordinates) (rest : list Coordinates) : double :=
  let '(left_it, right_it) :=
    minmax_element (fun lhs rhs => dltb (lng lhs) (lng rhs)) first rest in
  dsub (lng right_it) (lng left_it).

Definition lat_spread (first : Coordinates) (rest : list Coordinates) : double :=
  let '(bottom_it, top_it) :=
    minmax_element (fun lhs rhs => dltb (lat lhs) (lat rhs)) first rest in
  dsub (lat top_it) (lat bottom_it).

Record SphereProjector : Type := mkSphereProjector {
  padding_ : double;
  min_lon_ : double;
  max_lat_ : double;
  zoom_coeff_ : double
}.

(** The constructor [SphereProjector(points_begin, points_end, max_width,
    max_height, padding)]. *)
Definition make_SphereProjector (points : list Coordinates)
    (max_width max_height padding : double) : SphereProjector :=
  match points with
  | [] => mkSphereProjector padding dzero dzero dzero
  | first :: rest =>
      let '(left_it, right_it) :=
        minmax_element (fun lhs rhs => dltb (lng lhs) (lng rhs)) first rest in
      let min_lon := lng left_it in
      let max_lon := lng right_it in
      let '(bottom_it, top_it) :=
        minmax_element (fun lhs rhs => dltb (lat lhs) (lat rhs)) first rest in
      let min_lat := lat bottom_it in
      let max_lat := lat top_it in
      let width_zoom :=
        guarded_zoom (dsub max_width (dmul (dconst 2) padding)) (dsub max_lon min_lon) in
      let height_zoom :=
        guarded_zoom (dsub max_height (dmul (dconst 2) padding)) (dsub max_lat min_lat) in
      let zoom_coeff :=
        match width_zoom, height_zoom with
        | Some w, Some h => dmin w h
        | Some w, None => w
        | None, Some h => h
        | None, None => dzero
        end in
      mkSphereProjector padding min_lon max_lat zoom_coeff
  end.

(** [SphereProjector::operator()]. *)
Definition project (projector : SphereProjector) (coords : Coordinates) : Point :=
  mkPoint
    (dadd (dmul (dsub (lng coords) (min_lon_ projector)) (zoom_coeff_ projector))
          (padding_ projector))
    (dadd (dmul (dsub (max_lat_ projector) (lat coords)) (zoom_coeff_ projector))
          (padding_ projector)).

(** ** Drawing routes and stops: [MapRenderer] *)

(** [transport_catalogue::Stop] and [transport_catalogue::Bus], with the
    members the renderer reads. *)
Record Stop : Type := mkStop { stop_name : string; coordinates : Coordinates }.

(** A [StopPtr]: the address of a stop object held by a catalogue. *)
Definition StopPtr : Type := nat.

(** A bus holds its stops by pointer: each element of [stops] is an
    address together with the stop object found there. *)
Record Bus : Type := mkBus {
  bus_name : string;
  is_roundtrip : bool;
  stops : list (StopPtr * Stop)
}.

(** [lhs != rhs] on two [StopPtr]: the addresses are compared, not the
    objects. *)
Definition other_stop (lhs rhs : StopPtr * Stop) : bool :=
  negb (Nat.eqb (fst lhs) (fst rhs)).

(** What ends up in the [svg::Document].  [RenderRouteLine],
    [RenderRouteName] and [RenderStopName] are defined outside the
    header; each is kept as the shape it is asked to draw. *)
Inductive Shape : Type :=
| RouteLine (bus : Bus) (color : Color) (projector : SphereProjector)
| RouteName (position : Point) (color : Color) (name : string)
| StopCircle (center : Point) (radius : double)
| StopName (position : Point) (name : string).

(** [settings_.color_palette[index % nums]]: a modulo by zero and an index
    past the end are undefined behaviour. *)
Definition palette_color (color_palette : list Color) (index nums : nat) : outcome Color :=
  if decide (nums = 0) then Undefined
  else match color_palette !! (index mod nums) with
       | Some color => Returns color
       | None => Undefined
       end.

(** [front()] and [back()] of a vector; undefined on an empty one. *)
Definition front {A} (v : list A) : outcome A :=
  match v with
  | [] => Undefined
  | a :: _ => Returns a
  end.

Definition back {A} (v : list A) : outcome A :=
  match last v with
  | Some a => Returns a
  | None => Undefined
  end.

(** The first loop of [RenderRoutes] from counter value [index] on, with
    the document and the route names collected so far.  The counter is a
    [size_t]; a range in memory is too short to make it wrap. *)
Fixpoint RenderRoutes_from (settings_ : RenderSettings) (nums : nat)
    (projector : SphereProjector) (buses : list Bus) (index : nat)
    (document route_names : list Shape) : outcome (list Shape * list Shape) :=
  match buses with
  | [] => Returns (document, route_names)
  | bus :: rest =>
      color ← palette_color (color_palette settings_) index nums;
      let document := document ++ [RouteLine bus color projector] in
      first_stop ← front (stops bus);
      let route_names :=
        route_names ++ [RouteName (project projector (coordinates (snd first_stop)))
                                  color (bus_name bus)] in
      last_stop ← back (stops bus);
      let route_names :=
        if negb (is_roundtrip bus) && other_stop first_stop last_stop
        then route_names ++ [RouteName (project projector (coordinates (snd last_stop)))
                                       color (bus_name bus)]
        else route_names in
      RenderRoutes_from settings_ nums projector rest (S index) document route_names
  end.

(** [MapRenderer::RenderRoutes]: the lines, then the names. *)
Definition RenderRoutes (settings_ : RenderSettings) (buses : list Bus)
    (projector : SphereProjector) (document : list Shape) : outcome (list Shape) :=
  let index := 0 in
  let nums := length (color_palette settings_) in
  r ← RenderRoutes_from settings_ nums projector buses index document [];
  Returns (fst r ++ snd r).

(** [MapRenderer::RenderStops]: the circles, then the names.  The range
    of [StopPtr] is only read through ([stop->coordinates],
    [stop->name]): [stops] is the list of the objects pointed to. *)
Definition RenderStops (settings_ : RenderSettings) (stops : list Stop)
    (projector : SphereProjector) (document : list Shape) : list Shape :=
  document
  ++ map (fun stop => StopCircle (project projector (coordinates stop))
                                 (stop_radius settings_)) stops
  ++ map (fun stop => StopName (project projector (coordinates stop)) (stop_name stop)) stops.

(** [MapRenderer::RenderMap].  [stop_set] is the [std::set] of the stop
    pointers of all buses under [StopComparator], as the list of the
    stops it is iterated in. *)
Definition RenderMap (settings_ : RenderSettings)
    (stop_set : list (StopPtr * Stop) -> list Stop)
    (buses : list Bus) : outcome (list Shape) :=
  let stops := stop_set (bus ← buses; stops bus) in
  let points := map coordinates stops in
  let projector :=
    make_SphereProjector points (width settings_) (height settings_) (padding settings_) in
  document ← RenderRoutes settings_ buses projector [];
  Returns (RenderStops settings_ stops projector document).

(** ** The route table decoder, read off as functions

    What the two loops compute when no assignment leaves its row. *)

(** The row the inner loop leaves behind. *)
Fixpoint fill_row (routes : list pb.Route) (to_id : nat)
    (row : list (option RouteInternalData)) : list (option RouteInternalData) :=
  match routes with
  | [] => row
  | route :: rest =>
      fill_row rest (S to_id)
        (match pb.data route with
         | Some route_data => <[to_id := Some (decode_data route_data)]> row
         | None => row
         end)
  end.

(** The table the outer loop leaves behind. *)
Fixpoint fill_rows (rows : list pb.RouteList) (from_id : nat)
    (data : RoutesInternalData) : RoutesInternalData :=
  match rows with
  | [] => data
  | route_list :: rest =>
      fill_rows rest (S from_id) (alter (fill_row (pb.route route_list) 0) from_id data)
  end.

(** What the message says about entry [k] of a row: nothing when the row
    has no [k]-th route or that route has no [data]. *)
Definition decoded_route (routes : list pb.Route) (k : nat) : option RouteInternalData :=
  route ← routes !! k; decode_data <$> pb.data route.

(** What the message says about entry [(from_id, to_id)]. *)
Definition decoded_entry (object : pb.Router) (from_id to_id : nat)
    : option RouteInternalData :=
  row ← pb.route_list object !! from_id; decoded_route (pb.route row) to_id.

(** ** Example data

    The scenario of section 8: stops A, B and C as vertices 0, 1 and 2, a
    ride from A to B (31 minutes), from A to C (56) and from B to C
    (31). *)
Definition abc_graph : Graph :=
  mkGraph 3%N [mkEdge 0%N 1%N (dconst 31); mkEdge 0%N 2%N (dconst 56);
             mkEdge 1%N 2%N (dconst 31)].

(** A route table over [abc_graph]: absent entries, entries without a
    predecessor edge and entries with one. *)
Definition abc_routes : RoutesInternalData :=
  [ [Some (mkRoute dzero None); Some (mkRoute (dconst 31) (Some 0%N));
     Some (mkRoute (dconst 56) (Some 1%N))];
    [None; Some (mkRoute dzero None); Some (mkRoute (dconst 31) (Some 2%N))];
    [None; None; Some (mkRoute dzero None)] ].

(** [abc_graph] with one more, slower ride from A to B: no shortest route
    uses it, so [abc_routes] is a route table over this graph too. *)
Definition abc_graph_slow : Graph :=
  mkGraph 3%N (graph_edges abc_graph ++ [mkEdge 0%N 1%N (dconst 40)]).

Definition abc_settings : RoutingSettings := mkRoutingSettings (dconst 6) (dconst 40).

Definition abc_router : TransportRouter :=
  mkTransportRouter abc_settings abc_graph (mkRouter abc_routes).

Definition abc_router_slow : TransportRouter :=
  mkTransportRouter abc_settings abc_graph_slow (mkRouter abc_routes).

(** Collaborators for the examples: a catalogue of stops without buses, a
    list of stop names that is its own message; the graph of such a
    catalogue has a vertex per stop and no edge (section 4.2); a stream is
    what the protobuf parser makes of it, a [Database] or nothing. *)
Definition stops_only : Collaborators := {|
  Catalogue := list string;
  CatalogueMsg := list string;
  Serialize_TransportCatalogue := fun stops => stops;
  Deserialize_TransportCatalogue := fun stops => Returns stops;
  BuildGraph := fun _ stops => new_Graph (N.of_nat (length stops));
  Stream := option (pb.Database (list string));
  SerializeToOstream := Some;
  ParseFromIstream := fun input => input
|}.

Definition no_color : pb.Color := pb.mkColor EmptyString None None.

Definition plain_settings : pb.RenderSettings :=
  pb.mkRenderSettings dzero dzero dzero dzero dzero 0 0 dzero
    (pb.mkPoint dzero dzero) (pb.mkPoint dzero dzero) no_color [].

(** A well-framed database around a [Router] message: no stops, default
    render and routing settings. *)
Definition database_with (router : pb.Router) : pb.Database (list string) :=
  pb.mkDatabase [] (pb.mkMapRenderer plain_settings)
    (pb.mkTransportRouter (pb.mkRoutingSettings dzero dzero) router).

(** One row, one entry, whose predecessor is edge 7. *)
Definition stray_router : pb.Router :=
  pb.mkRouter [pb.mkRouteList
    [pb.mkRouteMsg (Some (pb.mkRouteData (dconst 31) (Some (pb.mkEdgeId 7%N))))]].



(** One row without any entry. *)
Definition short_router : pb.Router := pb.mkRouter [pb.mkRouteList []].

(** One row with two entries, the second of them present. *)
Definition overlong_router : pb.Router :=
  pb.mkRouter [pb.mkRouteList
    [pb.mkRouteMsg None; pb.mkRouteMsg (Some (pb.mkRouteData (dconst 31) None))]].

Definition red_green : list Color := [ColorName "red"; ColorName "green"].

(** Render settings around a colour palette. *)
Definition settings_with (color_palette : list Color) : RenderSettings :=
  mkRenderSettings (dconst 600) (dconst 400) (dconst 50) dzero dzero 0 (mkPoint dzero dzero) 0
    (mkPoint dzero dzero) (ColorName "white") dzero color_palette.

Definition stop_A : Stop := mkStop "A" (mkCoordinates (dconst 55) (dconst 37)).
Definition stop_B : Stop := mkStop "B" (mkCoordinates (dconst 56) (dconst 39)).

(** Stop A is held at address 100 and stop B at address 200. *)
Definition three_buses : list Bus :=
  [mkBus "14" true [(100, stop_A); (200, stop_B); (100, stop_A)];
   mkBus "114" false [(100, stop_A); (200, stop_B)];
   mkBus "297" true [(200, stop_B); (100, stop_A); (200, stop_B)]].

(** A bus that is not a round trip and runs between two stop objects of
    one name, and one that comes back to the object it left. *)
Definition twin_ends_bus : Bus :=
  mkBus "7" false [(100, stop_A); (200, stop_B); (300, stop_A)].

Definition there_and_back_bus : Bus :=
  mkBus "8" false [(100, stop_A); (200, stop_B); (100, stop_A)].

(** The stops of a range of pointers in the order they are met, one per
    name. *)
Fixpoint first_seen (seen : list string) (stops : list (StopPtr * Stop)) : list Stop :=
  match stops with
  | [] => []
  | (_, stop) :: rest =>
      if existsb (String.eqb (stop_name stop)) seen then first_seen seen rest
      else stop :: first_seen (stop_name stop :: seen) rest
  end.


(** ** Well-formed colours

    The channels of [svg::Rgb] and [svg::Rgba] are [uint8_t]: values
    below 256. *)
Definition is_uint8 (v : N) : bool := (v <? 256)%N.

Definition Color_ok (color : Color) : bool :=
  match color with
  | ColorName _ => true
  | ColorRgb c => is_uint8 (red c) && is_uint8 (green c) && is_uint8 (blue c)
  | ColorRgba c => is_uint8 (rgba_red c) && is_uint8 (rgba_green c) && is_uint8 (rgba_blue c)
  end.

Definition RenderSettings_ok (render_settings : RenderSettings) : bool :=
  Color_ok (underlayer_color render_settings)
  && forallb Color_ok (color_palette render_settings).

(** A colour message with every alternative set and channels past 255. *)
Definition loud_color : pb.Color :=
  pb.mkColor "red" (Some (pb.mkRgb 300 0 0)) (Some (pb.mkRgba 256 511 1000 (dconst 1))).

Definition loud_settings : pb.RenderSettings :=
  pb.mkRenderSettings (dconst 600) (dconst 400) (dconst 50) dzero dzero 20 18 dzero
    (pb.mkPoint dzero dzero) (pb.mkPoint dzero dzero) loud_color [loud_color; no_color].

(** A one-row table whose row has two present entries. *)
Definition wide_routes : RoutesInternalData :=
  [[Some (mkRoute dzero None); Some (mkRoute (dconst 31) (Some 0%N))]].

(** A two-row table with a short first row. *)
Definition narrow_routes : RoutesInternalData :=
  [[Some (mkRoute dzero None)]; [None; Some (mkRoute dzero None)]].

(** ** The order of doubles

    A double that is a number, as a triple of integers whose
    lexicographic order is the order [<] of doubles: the class (negative
    infinity, negative, zero, positive, positive infinity), then the
    exponent and the mantissa, both negated for a negative number. *)
Definition dkey (v : double) : Z * Z * Z :=
  match v with
  | S754_zero _ => (0, 0, 0)%Z
  | S754_nan => (0, 0, 0)%Z
  | S754_infinity false => (2, 0, 0)%Z
  | S754_infinity true => (-2, 0, 0)%Z
  | S754_finite false m e => (1, e, Zpos m)%Z
  | S754_finite true m e => (-1, - e, Zneg m)%Z
  end.

Definition key_lt (a b : Z * Z * Z) : Prop :=
  let '(a1, a2, a3) := a in
  let '(b1, b2, b3) := b in
  (a1 < b1 \/ (a1 = b1 /\ (a2 < b2 \/ (a2 = b2 /\ a3 < b3))))%Z.

(** Both coordinates are numbers. *)
Definition is_number (coords : Coordinates) : bool :=
  negb (is_nan (lat coords)) && negb (is_nan (lng coords)).

(** Both coordinates are finite. *)
Definition is_located (coords : Coordinates) : bool :=
  is_finite (lat coords) && is_finite (lng coords).

Definition moscow : Coordinates := mkCoordinates (dconst 55) (dconst 37).
Definition tver : Coordinates := mkCoordinates (dconst 56) (dconst 35).
Definition tula : Coordinates := mkCoordinates (dconst 54) (dconst 38).

(** ** What a drawn route consists of *)

Definition has_stops (bus : Bus) : bool :=
  match stops bus with [] => false | _ :: _ => true end.

(** The name labels of a bus drawn in [color]: one at its first stop and,
    for a bus that is not a round trip and ends at another stop object,
    one at its last stop. *)
Definition labels (projector : SphereProjector) (bus : Bus) (color : Color) : list Shape :=
  match stops bus, last (stops bus) with
  | first_stop :: _, Some last_stop =>
      RouteName (project projector (coordinates (snd first_stop))) color (bus_name bus)
      :: (if negb (is_roundtrip bus) && other_stop first_stop last_stop
          then [RouteName (project projector (coordinates (snd last_stop))) color
                          (bus_name bus)]
          else [])
  | _, _ => []
  end.

(** The ranges [RenderMap] can draw: the empty one, and with a non-empty
    palette those whose buses all have a stop. *)
Definition drawable (settings_ : RenderSettings) (buses : list Bus) : bool :=
  match buses with
  | [] => true
  | _ :: _ =>
      match color_palette settings_ with
      | [] => false
      | _ :: _ => forallb has_stops buses
      end
  end.

Definition no_stop_bus : Bus := mkBus "empty" true [].

(** ** Printing containers: [tests.h]

    An output stream is the text written to it so far; [show] is the text
    [os << element] writes for an element. *)

(** The loop of [Print], with its flag [is_first]. *)
Fixpoint Print_from {A} (show : A -> string) (is_first : bool) (os : string)
    (container : list A) : string :=
  match container with
  | [] => os
  | element :: rest =>
      let os := if negb is_first then (os ++ ", ")%string else os in
      Print_from show false (os ++ show element)%string rest
  end.

(** [Print(os, container)]. *)
Definition Print {A} (show : A -> string) (os : string) (container : list A) : string :=
  Print_from show true os container.

(** [operator<<] for a [std::pair]. *)
Definition print_pair {T U} (show_first : T -> string) (show_second : U -> string)
    (os : string) (p : T * U) : string :=
  (os ++ show_first (fst p) ++ ": " ++ show_second (snd p))%string.

(** [operator<<] for a [std::vector]. *)
Definition print_vector {A} (show : A -> string) (os : string) (v : list A) : string :=
  (Print show (os ++ "[") v ++ "]")%string.

(** [operator<<] for a [std::deque], a [std::set] and a
    [std::unordered_set], over the elements in iteration order. *)
Definition print_braced {A} (show : A -> string) (os : string) (s : list A) : string :=
  (Print show (os ++ "{") s ++ "}")%string.

(** [operator<<] for a [std::unordered_map], over its entries in
    iteration order. *)
Definition print_map {K V} (show_key : K -> string) (show_value : V -> string)
    (os : string) (s : list (K * V)) : string :=
  print_braced (print_pair show_key show_value EmptyString) os s.

(** ** The catalogue codec *)

(** [transport_catalogue::Bus] as a catalogue holds it: its stops are
    pointers. *)
Record CatalogueBus : Type := mkCatalogueBus {
  record_name : string;
  record_is_roundtrip : bool;
  record_stops : list StopPtr
}.

(** The messages of the catalogue; [D] is the type of a distance, [int]
    ids are naturals. *)
Module pbc.

Record Stop (D : Type) : Type := mkStop {
  name : string;
  lat : double;
  lng : double;
  distance : gmap nat D
}.
Arguments mkStop {D} _ _ _ _.
Arguments name {D} _.
Arguments lat {D} _.
Arguments lng {D} _.
Arguments distance {D} _.

Record Bus : Type := mkBus {
  bus_name : string;
  is_roundtrip : bool;
  stop_id : list nat
}.

Record TransportCatalogue (D : Type) : Type := mkTransportCatalogue {
  stop_list : list (Stop D);
  bus_list : list Bus
}.
Arguments mkTransportCatalogue {D} _ _.
Arguments stop_list {D} _.
Arguments bus_list {D} _.

End pbc.

(** What [Serialize] reads of a [TransportCatalogue]: the stops of
    [GetStopsRange()], each with its address, the entries of
    [GetStopsDistanceRange()] and the buses of [GetBusesRange()]. *)
Record CatalogueView (D : Type) : Type := mkCatalogueView {
  GetStopsRange : list (StopPtr * Stop);
  GetStopsDistanceRange : list ((StopPtr * StopPtr) * D);
  GetBusesRange : list CatalogueBus
}.
Arguments mkCatalogueView {D} _ _ _.
Arguments GetStopsRange {D} _.
Arguments GetStopsDistanceRange {D} _.
Arguments GetBusesRange {D} _.

(** [details::Serialize(const transport_catalogue::Stop&)]. *)
Definition Serialize_Stop {D} (stop : Stop) : pbc.Stop D :=
  pbc.mkStop (stop_name stop) (lat (coordinates stop)) (lng (coordinates stop)) ∅.

(** [details::Serialize(const transport_catalogue::Bus&)]. *)
Definition Serialize_Bus (bus : CatalogueBus) : pbc.Bus :=
  pbc.mkBus (record_name bus) (record_is_roundtrip bus) [].

(** [stop_to_id[key]] on a [std::unordered_map<StopPtr, int>]: a key that
    is not in the map is entered with the value 0. *)
Definition id_of (stop_to_id : gmap StopPtr nat) (key : StopPtr) : nat :=
  default 0 (stop_to_id !! key).

(** The first loop of [Serialize(const TransportCatalogue&)]: every stop
    is numbered with the size of the list before it is added. *)
Fixpoint number_stops {D} (range : list (StopPtr * Stop))
    (stop_to_id : gmap StopPtr nat) (stop_list : list (pbc.Stop D))
    : gmap StopPtr nat * list (pbc.Stop D) :=
  match range with
  | [] => (stop_to_id, stop_list)
  | (ptr, stop) :: rest =>
      number_stops rest (<[ptr := length stop_list]> stop_to_id)
                   (stop_list ++ [Serialize_Stop stop])
  end.

(** [distances[to_id] = distance] on the [distance] map of
    [stop_list.mutable_stop(from_id)]; an index past the last stop is
    undefined behaviour. *)
Definition set_distance {D} (stop_list : list (pbc.Stop D)) (from_id to_id : nat)
    (distance : D) : outcome (list (pbc.Stop D)) :=
  match stop_list !! from_id with
  | Some stop =>
      Returns (<[from_id := pbc.mkStop (pbc.name stop) (pbc.lat stop) (pbc.lng stop)
                              (<[to_id := distance]> (pbc.distance stop))]> stop_list)
  | None => Undefined
  end.

(** The second loop: the distances, keyed by the ids of their stops. *)
Fixpoint write_distances {D} (entries : list ((StopPtr * StopPtr) * D))
    (stop_to_id : gmap StopPtr nat) (stop_list : list (pbc.Stop D))
    : outcome (list (pbc.Stop D)) :=
  match entries with
  | [] => Returns stop_list
  | ((from_stop, to_stop), distance) :: rest =>
      let from_id := id_of stop_to_id from_stop in
      let to_id := id_of stop_to_id to_stop in
      stop_list' ← set_distance stop_list from_id to_id distance;
      write_distances rest stop_to_id stop_list'
  end.

(** The body of the third loop: a bus with the ids of its stops. *)
Definition write_bus (stop_to_id : gmap StopPtr nat) (bus : CatalogueBus) : pbc.Bus :=
  let object := Serialize_Bus bus in
  pbc.mkBus (pbc.bus_name object) (pbc.is_roundtrip object)
            (pbc.stop_id object ++ map (id_of stop_to_id) (record_stops bus)).

(** [details::Serialize(const transport_catalogue::TransportCatalogue&)]. *)
Definition Serialize_Catalogue {D} (transport_catalogue : CatalogueView D)
    : outcome (pbc.TransportCatalogue D) :=
  let '(stop_to_id, stop_list) :=
    number_stops (GetStopsRange transport_catalogue) ∅ [] in
  stop_list ← write_distances (GetStopsDistanceRange transport_catalogue)
                              stop_to_id stop_list;
  let bus_list := map (write_bus stop_to_id) (GetBusesRange transport_catalogue) in
  Returns (pbc.mkTransportCatalogue stop_list bus_list).

(** The catalogue class as the decoder uses it: a fresh catalogue and the
    four member functions it calls, each of which may throw. *)
Class CatalogueOps (C D : Type) : Type := {
  new_catalogue : C;
  AddStop : C -> Stop -> outcome C;
  FindStop : C -> string -> outcome StopPtr;
  SetDistance : C -> StopPtr -> StopPtr -> D -> outcome C;
  AddBus : C -> CatalogueBus -> outcome C
}.

(** [v[i]] and [repeated.Get(i)] for reading: an index past the end is
    undefined behaviour. *)
Definition at_index {A} (v : list A) (i : nat) : outcome A :=
  match v !! i with
  | Some a => Returns a
  | None => Undefined
  end.

(** The first loop of [Deserialize(const TransportCatalogue&)]: the stops
    are added and their addresses collected. *)
Fixpoint add_stops `{CatalogueOps C D} (stops : list (pbc.Stop D))
    (transport_catalogue : C) (all_stops : list StopPtr) : outcome (C * list StopPtr) :=
  match stops with
  | [] => Returns (transport_catalogue, all_stops)
  | stop_raw :: rest =>
      transport_catalogue ←
        AddStop transport_catalogue
          (mkStop (pbc.name stop_raw)
                  (mkCoordinates (pbc.lat stop_raw) (pbc.lng stop_raw)));
      ptr ← FindStop transport_catalogue (pbc.name stop_raw);
      add_stops rest transport_catalogue (all_stops ++ [ptr])
  end.

(** The inner loop of the second loop, over the entries of one stop's
    [distance] map. *)
Fixpoint add_distances_from `{CatalogueOps C D} (stop_list : list (pbc.Stop D))
    (from_stop : StopPtr) (entries : list (nat * D)) (transport_catalogue : C) : outcome C :=
  match entries with
  | [] => Returns transport_catalogue
  | (to_id, distance) :: rest =>
      to_raw ← at_index stop_list to_id;
      to_stop ← FindStop transport_catalogue (pbc.name to_raw);
      transport_catalogue ← SetDistance transport_catalogue from_stop to_stop distance;
      add_distances_from stop_list from_stop rest transport_catalogue
  end.

(** The second loop, over the stops not yet visited. *)
Fixpoint add_distances `{CatalogueOps C D} (stop_list stops : list (pbc.Stop D))
    (transport_catalogue : C) : outcome C :=
  match stops with
  | [] => Returns transport_catalogue
  | stop :: rest =>
      from_stop ← FindStop transport_catalogue (pbc.name stop);
      transport_catalogue ←
        add_distances_from stop_list from_stop (map_to_list (pbc.distance stop))
                           transport_catalogue;
      add_distances stop_list rest transport_catalogue
  end.

(** The stops of a bus, looked up in [all_stops] one id after the other. *)
Fixpoint bus_stops_of (all_stops : list StopPtr) (stop_ids : list nat)
    : outcome (list StopPtr) :=
  match stop_ids with
  | [] => Returns []
  | stop_id :: rest =>
      ptr ← at_index all_stops stop_id;
      ptrs ← bus_stops_of all_stops rest;
      Returns (ptr :: ptrs)
  end.

(** The third loop, over the buses not yet added. *)
Fixpoint add_buses `{CatalogueOps C D} (all_stops : list StopPtr) (buses : list pbc.Bus)
    (transport_catalogue : C) : outcome C :=
  match buses with
  | [] => Returns transport_catalogue
  | bus :: rest =>
      bus_stops ← bus_stops_of all_stops (pbc.stop_id bus);
      transport_catalogue ←
        AddBus transport_catalogue
               (mkCatalogueBus (pbc.bus_name bus) (pbc.is_roundtrip bus) bus_stops);
      add_buses all_stops rest transport_catalogue
  end.

(** [details::Deserialize(const TransportCatalogue&)]. *)
Definition Deserialize_Catalogue `{CatalogueOps C D} (object : pbc.TransportCatalogue D)
    : outcome C :=
  let stop_list := pbc.stop_list object in
  r ← add_stops stop_list new_catalogue [];
  transport_catalogue ← add_distances stop_list stop_list (fst r);
  add_buses (snd r) (pbc.bus_list object) transport_catalogue.

(** Every stop id and every key of a [distance] map of the message is
    below the number of its stops. *)
Definition ids_within {D} (object : pbc.TransportCatalogue D) : bool :=
  let n := length (pbc.stop_list object) in
  forallb (fun stop => forallb (fun entry => fst entry <? n)
                               (map_to_list (pbc.distance stop)))
          (pbc.stop_list object)
  && forallb (fun bus => forallb (fun stop_id => stop_id <? n) (pbc.stop_id bus))
             (pbc.bus_list object).

(** The scalar fields of a [Stop] message. *)
Definition stop_core {D} (stop : pbc.Stop D) : string * double * double :=
  (pbc.name stop, pbc.lat stop, pbc.lng stop).

(** A catalogue kept as three lists, for the examples: a stop's address
    is its position; looking up a name that is not there throws. *)
Record ListCatalogue : Type := mkListCatalogue {
  list_stops : list Stop;
  list_distances : list ((StopPtr * StopPtr) * N);
  list_buses : list CatalogueBus
}.

Fixpoint position_of (name : string) (stops : list Stop) : option nat :=
  match stops with
  | [] => None
  | stop :: rest =>
      if String.eqb (stop_name stop) name then Some 0
      else S <$> position_of name rest
  end.

Definition list_catalogue_ops : CatalogueOps ListCatalogue N := {|
  new_catalogue := mkListCatalogue [] [] [];
  AddStop := fun c stop =>
    Returns (mkListCatalogue (list_stops c ++ [stop]) (list_distances c) (list_buses c));
  FindStop := fun c name =>
    match position_of name (list_stops c) with
    | Some ptr => Returns ptr
    | None => Throws InvalidVertex
    end;
  SetDistance := fun c from_stop to_stop distance =>
    Returns (mkListCatalogue (list_stops c)
               (list_distances c ++ [((from_stop, to_stop), distance)]) (list_buses c));
  AddBus := fun c bus =>
    Returns (mkListCatalogue (list_stops c) (list_distances c) (list_buses c ++ [bus]))
|}.

(** Two stops at addresses 100 and 200, the distances between them and
    one bus there and back. *)
Definition two_stop_view : CatalogueView N :=
  mkCatalogueView
    [(100, stop_A); (200, stop_B)]
    [((100, 200), 1000%N); ((200, 100), 1200%N)]
    [mkCatalogueBus "14" true [100; 200; 100]].

(** A message whose only bus refers to a third stop of two. *)
Definition stray_bus_msg : pbc.TransportCatalogue N :=
  pbc.mkTransportCatalogue
    [pbc.mkStop "A" (dconst 55) (dconst 37) ∅; pbc.mkStop "B" (dconst 56) (dconst 39) ∅]
    [pbc.mkBus "14" true [0; 2]].

(** A well-formed message of two stops. *)
Definition two_stop_msg : pbc.TransportCatalogue N :=
  pbc.mkTransportCatalogue
    [pbc.mkStop "A" (dconst 55) (dconst 37) {[1 := 1000%N]};
     pbc.mkStop "B" (dconst 56) (dconst 39) {[0 := 1200%N]}]
    [pbc.mkBus "14" true [0; 1; 0]].

(** The distance a list of [Stop] messages records from stop [i] to stop
    [j]. *)
Definition distance_at {D} (stop_list : list (pbc.Stop D)) (i j : nat) : option D :=
  stop ← stop_list !! i; pbc.distance stop !! j.

(** The ids under which the second loop files an entry. *)
Definition entry_ids {D} (stop_to_id : gmap StopPtr nat)
    (entry : (StopPtr * StopPtr) * D) : nat * nat :=
  (id_of stop_to_id (fst (fst entry)), id_of stop_to_id (snd (fst entry))).

(** * Properties *)

(** ** Route table: encoding and decoding *)

Lemma decode_data_Serialize_route (r : RouteInternalData) :
  exists d, pb.data (Serialize_route (Some r)) = Some d /\ decode_data d = r.
Proof.
  destruct r as [w [e|]]; simpl; eexists; (split; [reflexivity|]); reflexivity.
Qed.

(** The inner loop over an encoded row fills the row in place, entry by
    entry, once the entries before [to_id] are done. *)
Lemma decode_routes_Serialize (row done : list (option RouteInternalData))
    (from_id : nat) (data : RoutesInternalData) :
  data !! from_id = Some (done ++ replicate (length row) None) ->
  decode_routes (map Serialize_route row) from_id (length done) data
  = Returns (<[from_id := done ++ row]> data).
Proof.
  revert done data.
  induction row as [|e row IH]; intros done data Hrow.
  - cbn [map decode_routes length replicate] in *. f_equal. symmetry.
    apply list_insert_id. exact Hrow.
  - assert (Hlt : from_id < length data) by (eapply lookup_lt_Some; exact Hrow).
    destruct e as [r|].
    + destruct (decode_data_Serialize_route r) as (d & Hd & Hr).
      cbn [map decode_routes]. rewrite Hd. unfold assign. rewrite Hrow.
      rewrite decide_True
        by (rewrite length_app; simpl; lia).
      cbn [mbind outcome_bind]. rewrite Hr.
      replace (S (length done)) with (length (done ++ [Some r]))
        by (rewrite length_app; simpl; lia).
      rewrite IH.
      * rewrite list_insert_insert_eq. rewrite <- app_assoc. reflexivity.
      * rewrite list_lookup_insert_eq by exact Hlt.
        f_equal. cbn [replicate length].
        rewrite insert_app_r_alt by lia.
        rewrite Nat.sub_diag. simpl. rewrite <- app_assoc. reflexivity.
    + cbn [map decode_routes Serialize_route pb.data mbind outcome_bind].
      replace (S (length done)) with (length (done ++ [@None RouteInternalData]))
        by (rewrite length_app; simpl; lia).
      rewrite IH.
      * rewrite <- app_assoc. reflexivity.
      * rewrite Hrow. rewrite <- app_assoc. reflexivity.
Qed.

(** The outer loop over the encoded rows of a table whose rows all have
    [n] entries. *)
Lemma decode_rows_Serialize (n : nat) (rows done : RoutesInternalData) :
  Forall (fun row => length row = n) rows ->
  decode_rows (map (fun row => pb.mkRouteList (map Serialize_route row)) rows)
              (length done) (done ++ replicate (length rows) (replicate n None))
  = Returns (done ++ rows).
Proof.
  revert done.
  induction rows as [|row rows IH]; intros done Hn.
  - simpl. reflexivity.
  - inversion Hn as [|? ? Hrow Hrows]; subst.
    cbn [map decode_rows pb.route].
    rewrite (decode_routes_Serialize row [] (length done)).
    + cbn [mbind outcome_bind app].
      cbn [replicate length].
      rewrite insert_app_r_alt by lia. rewrite Nat.sub_diag. cbn [insert list_insert].
      replace (S (length done)) with (length (done ++ [row]))
        by (rewrite length_app; simpl; lia).
      replace (done ++ row :: replicate (length rows) (replicate (length row) None))
        with ((done ++ [row]) ++ replicate (length rows) (replicate (length row) None))
        by (rewrite <- app_assoc; reflexivity).
      rewrite IH by exact Hrows.
      rewrite <- app_assoc. reflexivity.
    + cbn [replicate length app].
      rewrite lookup_app_r by lia. rewrite Nat.sub_diag. reflexivity.
Qed.

(** Decoding the encoding of a square table returns that table. *)
Lemma Deserialize_Serialize_Router (t : RoutesInternalData) :
  square t -> Deserialize_Router (Serialize_Router t) = Returns t.
Proof.
  intros Hsq. unfold Deserialize_Router, Serialize_Router. cbn [pb.route_list].
  rewrite length_map.
  exact (decode_rows_Serialize (length t) t [] Hsq).
Qed.

(** ** Route table: decoding an arbitrary message *)

Lemma fill_row_length routes to_id row : length (fill_row routes to_id row) = length row.
Proof.
  revert to_id row. induction routes as [|route rest IH]; intros to_id row; simpl.
  - reflexivity.
  - rewrite IH. destruct (pb.data route); [apply length_insert|reflexivity].
Qed.

Lemma decoded_route_head route rest :
  decoded_route (route :: rest) 0 = decode_data <$> pb.data route.
Proof. reflexivity. Qed.

Lemma decoded_route_tail route rest k :
  decoded_route (route :: rest) (S k) = decoded_route rest k.
Proof. reflexivity. Qed.

Lemma fill_row_lookup routes to_id row j :
  j < length row ->
  fill_row routes to_id row !! j =
    if decide (to_id <= j)
    then match decoded_route routes (j - to_id) with
         | Some v => Some (Some v)
         | None => row !! j
         end
    else row !! j.
Proof.
  revert to_id row. induction routes as [|route rest IH]; intros to_id row Hj.
  - simpl. destruct (decide (to_id <= j)); reflexivity.
  - cbn [fill_row]. rewrite IH by (destruct (pb.data route); [rewrite length_insert|]; exact Hj).
    destruct (decide (S to_id <= j)) as [Hgt|Hle].
    + rewrite decide_True by lia.
      replace (j - to_id) with (S (j - S to_id)) by lia.
      rewrite decoded_route_tail.
      destruct (decoded_route rest (j - S to_id)); [reflexivity|].
      destruct (pb.data route); [apply list_lookup_insert_ne; lia|reflexivity].
    + destruct (decide (to_id <= j)) as [Hge|Hlt].
      * assert (j = to_id) by lia. subst j. rewrite Nat.sub_diag.
        rewrite decoded_route_head.
        destruct (pb.data route); cbn [fmap option_fmap option_map].
        -- apply list_lookup_insert_eq. exact Hj.
        -- reflexivity.
      * destruct (pb.data route); [apply list_lookup_insert_ne; lia|reflexivity].
Qed.

Lemma decode_routes_fill routes from_id to_id (data : RoutesInternalData) row :
  data !! from_id = Some row ->
  (forall k route, routes !! k = Some route -> pb.has_data route = true ->
     to_id + k < length row) ->
  decode_routes routes from_id to_id data
  = Returns (<[from_id := fill_row routes to_id row]> data).
Proof.
  revert to_id data row.
  induction routes as [|route rest IH]; intros to_id data row Hrow Hin.
  - cbn [decode_routes fill_row]. f_equal. symmetry. apply list_insert_id. exact Hrow.
  - assert (Hlt : from_id < length data) by (eapply lookup_lt_Some; exact Hrow).
    cbn [decode_routes fill_row].
    assert (Hrest : forall row' : list (option RouteInternalData), length row' = length row ->
              forall k r, rest !! k = Some r -> pb.has_data r = true ->
                S to_id + k < length row').
    { intros row' Hlen k r Hk Hd. rewrite Hlen.
      specialize (Hin (S k) r Hk Hd). lia. }
    destruct (pb.data route) as [d|] eqn:Hd.
    + unfold assign. rewrite Hrow.
      rewrite decide_True.
      2:{ specialize (Hin 0 route eq_refl). unfold pb.has_data in Hin.
          rewrite Hd in Hin. specialize (Hin eq_refl). lia. }
      cbn [mbind outcome_bind].
      rewrite (IH (S to_id) _ (<[to_id:=Some (decode_data d)]> row)).
      * rewrite list_insert_insert_eq. reflexivity.
      * apply list_lookup_insert_eq. exact Hlt.
      * apply Hrest. apply length_insert.
    + cbn [mbind outcome_bind]. apply IH; [exact Hrow|]. apply Hrest. reflexivity.
Qed.

Lemma insert_as_alter {A} (f : A -> A) (l : list A) i a :
  l !! i = Some a -> <[i := f a]> l = alter f i l.
Proof.
  revert i. induction l as [|b l IH]; intros [|i] Hi; simpl in *; try discriminate.
  - injection Hi as ->. reflexivity.
  - f_equal. apply IH. exact Hi.
Qed.

Lemma fill_rows_length rows from_id (data : RoutesInternalData) :
  length (fill_rows rows from_id data) = length data.
Proof.
  revert from_id data. induction rows as [|rl rest IH]; intros from_id data; simpl.
  - reflexivity.
  - rewrite IH. apply length_alter.
Qed.

Lemma fill_rows_lookup rows from_id (data : RoutesInternalData) i :
  fill_rows rows from_id data !! i =
    if decide (from_id <= i)
    then match rows !! (i - from_id) with
         | Some rl => fill_row (pb.route rl) 0 <$> data !! i
         | None => data !! i
         end
    else data !! i.
Proof.
  revert from_id data. induction rows as [|rl rest IH]; intros from_id data.
  - simpl. destruct (decide (from_id <= i)); reflexivity.
  - cbn [fill_rows]. rewrite IH.
    destruct (decide (S from_id <= i)) as [Hgt|Hle].
    + rewrite decide_True by lia.
      replace (i - from_id) with (S (i - S from_id)) by lia.
      cbn [lookup list_lookup].
      rewrite list_lookup_alter_ne by lia. reflexivity.
    + destruct (decide (from_id <= i)) as [Hge|Hlt].
      * assert (i = from_id) by lia. subst i. rewrite Nat.sub_diag.
        cbn [lookup list_lookup]. apply list_lookup_alter_eq.
      * apply list_lookup_alter_ne. lia.
Qed.

(** The loops return what [fill_rows] computes as long as every row of the
    message keeps its data within the [n] columns of the table. *)
Lemma decode_rows_fill n rows from_id (data : RoutesInternalData) :
  Forall (fun row => length row = n) data ->
  from_id + length rows <= length data ->
  Forall (row_fits n) rows ->
  decode_rows rows from_id data = Returns (fill_rows rows from_id data).
Proof.
  revert from_id data.
  induction rows as [|rl rest IH]; intros from_id data Hn Hlen Hin.
  - reflexivity.
  - cbn [length] in Hlen. cbn [decode_rows fill_rows].
    inversion Hin as [|? ? Hrl Hrest]; subst.
    destruct (lookup_lt_is_Some_2 data from_id ltac:(lia)) as [row Hrow].
    assert (Hrown : length row = n) by (eapply Forall_lookup_1 in Hn; eauto).
    rewrite (decode_routes_fill _ _ _ _ row Hrow).
    2:{ intros k route Hk Hd. rewrite Hrown. simpl. exact (Hrl k route Hk Hd). }
    cbn [mbind outcome_bind].
    rewrite (insert_as_alter (fill_row (pb.route rl) 0) data from_id row Hrow).
    apply IH.
    + apply Forall_alter; [exact Hn|]. intros r _ Hr. rewrite fill_row_length. exact Hr.
    + rewrite length_alter. lia.
    + exact Hrest.
Qed.

Lemma row_within_fits n row : row_within n row = true <-> row_fits n row.
Proof.
  unfold row_within, row_fits. rewrite forallb_forall. split.
  - intros Hall to_id route Hl Hd.
    destruct (decide (to_id < n)) as [|Hge]; [assumption|exfalso].
    assert (Hin : In route (drop n (pb.route row))).
    { apply list_elem_of_In, list_elem_of_lookup. exists (to_id - n).
      rewrite lookup_drop. rewrite <- Hl. f_equal. lia. }
    apply Hall in Hin. rewrite Hd in Hin. discriminate.
  - intros Hfit route Hin.
    apply list_elem_of_In, list_elem_of_lookup in Hin as [k Hk].
    rewrite lookup_drop in Hk.
    destruct (pb.has_data route) eqn:Hd; [|reflexivity].
    specialize (Hfit _ _ Hk Hd). lia.
Qed.

Lemma rows_within_fits (object : pb.Router) :
  rows_within object = true <->
  Forall (row_fits (length (pb.route_list object))) (pb.route_list object).
Proof.
  unfold rows_within. rewrite forallb_forall, Forall_forall.
  split; intros Hall row Hin.
  - apply row_within_fits, Hall, list_elem_of_In, Hin.
  - apply row_within_fits, Hall, list_elem_of_In, Hin.
Qed.

(** Decoding a message whose rows stay within the table: it returns a
    square table that holds, pair by pair, what the message says. *)
Lemma Deserialize_Router_within (object : pb.Router) :
  rows_within object = true ->
  exists t, Deserialize_Router object = Returns t /\
            length t = length (pb.route_list object) /\
            square t /\
            forall from_id to_id, entry t from_id to_id = decoded_entry object from_id to_id.
Proof.
  intros Hin. apply rows_within_fits in Hin. unfold Deserialize_Router.
  set (n := length (pb.route_list object)).
  set (data0 := replicate n (replicate n (@None RouteInternalData))).
  assert (Hsq0 : Forall (fun row : list (option RouteInternalData) => length row = n) data0).
  { apply Forall_replicate. apply length_replicate. }
  exists (fill_rows (pb.route_list object) 0 data0).
  assert (Hlen : length (fill_rows (pb.route_list object) 0 data0) = n).
  { rewrite fill_rows_length. apply length_replicate. }
  split; [|split; [exact Hlen|split]].
  - apply (decode_rows_fill n); [exact Hsq0| |exact Hin].
    unfold data0. rewrite length_replicate. fold n. lia.
  - unfold square. rewrite Hlen. apply Forall_lookup_2. intros i row Hi.
    rewrite fill_rows_lookup in Hi. rewrite decide_True in Hi by lia.
    rewrite Nat.sub_0_r in Hi.
    destruct (pb.route_list object !! i) as [rl|].
    + destruct (data0 !! i) as [r0|] eqn:H0; [|discriminate].
      injection Hi as <-. rewrite fill_row_length.
      eapply Forall_lookup_1 in Hsq0; eauto.
    + eapply Forall_lookup_1 in Hsq0; eauto.
  - intros from_id to_id. unfold entry, decoded_entry.
    rewrite fill_rows_lookup. rewrite decide_True by lia. rewrite Nat.sub_0_r.
    destruct (pb.route_list object !! from_id) as [rl|] eqn:Hrl.
    + assert (Hfrom : from_id < n) by (eapply lookup_lt_Some; exact Hrl).
      unfold data0. rewrite lookup_replicate_2 by exact Hfrom.
      cbn [fmap option_fmap option_map mbind option_bind].
      destruct (decide (to_id < n)) as [Hto|Hto].
      * rewrite fill_row_lookup by (rewrite length_replicate; exact Hto).
        rewrite decide_True by lia. rewrite Nat.sub_0_r.
        destruct (decoded_route (pb.route rl) to_id); [reflexivity|].
        rewrite lookup_replicate_2 by exact Hto. reflexivity.
      * rewrite lookup_ge_None_2 by (rewrite fill_row_length, length_replicate; lia).
        cbn [mjoin option_join]. symmetry.
        unfold decoded_route.
        destruct (pb.route rl !! to_id) as [route|] eqn:Hroute; [|reflexivity].
        cbn [mbind option_bind].
        destruct (pb.data route) as [d|] eqn:Hd; [|reflexivity].
        exfalso. apply Hto.
        eapply Forall_lookup_1 in Hin; [|exact Hrl].
        apply (Hin to_id route Hroute). unfold pb.has_data. rewrite Hd. reflexivity.
    + cbn [mbind option_bind].
      assert (Hge : n <= from_id) by (apply lookup_ge_None; exact Hrl).
      unfold data0. rewrite lookup_ge_None_2 by (rewrite length_replicate; lia).
      reflexivity.
Qed.

(** ** Claims about the route table codec *)

(** C1.  For every route table [t] of a router (square: as many entries
    per row as rows), decoding the encoding of [t] returns [t] itself: the
    same number of rows and, for every ordered pair, an entry that is
    absent exactly when the original is and that otherwise has the same
    weight and the same optional predecessor edge id. *)
Theorem router_table_roundtrip (t : RoutesInternalData) :
  square t ->
  exists t', Deserialize_Router (Serialize_Router t) = Returns t' /\
    t' = t /\
    length t' = length t /\
    forall from_id to_id,
      (entry t' from_id to_id = None <-> entry t from_id to_id = None) /\
      (forall r, entry t from_id to_id = Some r ->
         exists r', entry t' from_id to_id = Some r' /\
                    route_weight r' = route_weight r /\
                    route_prev_edge r' = route_prev_edge r).
Proof.
  intros Hsq. exists t.
  split; [exact (Deserialize_Serialize_Router t Hsq)|].
  split; [reflexivity|]. split; [reflexivity|].
  intros from_id to_id. split; [tauto|].
  intros r Hr. exists r. auto.
Qed.

Lemma router_table_roundtrip_witness :
  exists t', Deserialize_Router (Serialize_Router abc_routes) = Returns t' /\
    t' = abc_routes /\
    length t' = length abc_routes /\
    forall from_id to_id,
      (entry t' from_id to_id = None <-> entry abc_routes from_id to_id = None) /\
      (forall r, entry abc_routes from_id to_id = Some r ->
         exists r', entry t' from_id to_id = Some r' /\
                    route_weight r' = route_weight r /\
                    route_prev_edge r' = route_prev_edge r).
Proof.
  apply (router_table_roundtrip abc_routes).
  unfold square, abc_routes. repeat constructor.
Defined.

(** Squareness is what the decoder relies on: it sizes every row by the
    number of rows, so a one-row table whose row is empty comes back with
    one absent entry. *)
Lemma ragged_table_comes_back_square :
  Deserialize_Router (Serialize_Router [[]]) = Returns [[None]].
Proof. reflexivity. Qed.

Lemma Serialize_route_inj (e1 e2 : option RouteInternalData) :
  Serialize_route e1 = Serialize_route e2 -> e1 = e2.
Proof.
  destruct e1 as [[w1 [p1|]]|], e2 as [[w2 [p2|]]|]; simpl; intros H;
    congruence.
Qed.

(** C2.  "No route" and "reached as a first hop" are encoded differently
    whatever the weight: an absent entry is a [Route] without [data] (it
    carries no weight at all), an entry without predecessor is a [Route]
    with [data] whose [prev_edge] is unset.  The encoding never maps two
    entries to one message, and decoding gives each state back. *)
Theorem absent_and_first_hop_kept_apart :
  (forall w : double,
     pb.data (Serialize_route None) = None /\
     pb.has_data (Serialize_route None) = false /\
     exists d, pb.data (Serialize_route (Some (mkRoute w None))) = Some d /\
               pb.has_data (Serialize_route (Some (mkRoute w None))) = true /\
               pb.has_prev_edge d = false /\ pb.weight d = w) /\
  (forall e1 e2, Serialize_route e1 = Serialize_route e2 -> e1 = e2) /\
  (forall t : RoutesInternalData, square t ->
     exists t', Deserialize_Router (Serialize_Router t) = Returns t' /\
       forall from_id to_id,
         (entry t from_id to_id = None -> entry t' from_id to_id = None) /\
         (forall w, entry t from_id to_id = Some (mkRoute w None) ->
                    entry t' from_id to_id = Some (mkRoute w None))).
Proof.
  split; [|split].
  - intros w. split; [reflexivity|]. split; [reflexivity|].
    eexists. split; [reflexivity|]. repeat split.
  - exact Serialize_route_inj.
  - intros t Hsq. exists t.
    split; [exact (Deserialize_Serialize_Router t Hsq)|].
    intros from_id to_id. split; auto.
Qed.

Lemma absent_and_first_hop_kept_apart_witness :
  Serialize_route None <> Serialize_route (Some (mkRoute (S754_infinity false) None)) /\
  exists t', Deserialize_Router (Serialize_Router abc_routes) = Returns t' /\
    entry t' 1 0 = None /\ entry t' 1 1 = Some (mkRoute dzero None).
Proof.
  destruct absent_and_first_hop_kept_apart as (_ & Hinj & Hdec).
  split.
  - intros H. apply Hinj in H. discriminate H.
  - destruct (Hdec abc_routes) as (t' & Ht' & Hentries).
    + unfold square, abc_routes. repeat constructor.
    + exists t'. split; [exact Ht'|]. split.
      * apply (Hentries 1 0). reflexivity.
      * apply (Hentries 1 1). reflexivity.
Defined.

(** ** The graph codec *)

Lemma new_Graph_ok vertex_count : graph_ok (new_Graph vertex_count).
Proof. constructor. Qed.

(** [AddEdge] keeps the invariant and numbers edges in insertion order. *)
Lemma AddEdge_ok g e g' edge_id :
  graph_ok g -> AddEdge g e = Returns (g', edge_id) ->
  graph_ok g' /\ edge_id = N.of_nat (GetEdgeCount g) /\
  graph_vertex_count g' = graph_vertex_count g /\
  graph_edges g' = graph_edges g ++ [e].
Proof.
  unfold AddEdge, GetVertexCount. intros Hok H.
  destruct (from e <? graph_vertex_count g)%N eqn:Hf; [|discriminate].
  destruct (to e <? graph_vertex_count g)%N eqn:Ht; [|discriminate].
  destruct (valid_weight (weight e)) eqn:Hw; [|discriminate].
  cbn in H. injection H as <- <-. cbn.
  split; [|auto].
  unfold graph_ok. cbn. apply Forall_app. split; [exact Hok|].
  constructor; [|constructor].
  apply N.ltb_lt in Hf. apply N.ltb_lt in Ht. auto.
Qed.

Lemma serialize_edges_drop g edge_id count :
  edge_id + count = length (graph_edges g) ->
  serialize_edges g edge_id count
  = Returns (map Serialize_Edge (drop edge_id (graph_edges g))).
Proof.
  revert edge_id. induction count as [|count IH]; intros edge_id Hlen.
  - rewrite drop_ge by lia. reflexivity.
  - cbn [serialize_edges]. unfold GetEdge.
    destruct (lookup_lt_is_Some_2 (graph_edges g) edge_id ltac:(lia)) as [e He].
    rewrite He. cbn [mbind outcome_bind].
    rewrite IH by lia. cbn [mbind outcome_bind].
    rewrite (drop_S _ _ _ He). reflexivity.
Qed.

Lemma Serialize_Graph_returns g :
  Serialize_Graph g
  = Returns (pb.mkGraph (graph_vertex_count g) (map Serialize_Edge (graph_edges g))).
Proof.
  unfold Serialize_Graph, GetEdgeCount, GetVertexCount.
  rewrite serialize_edges_drop by reflexivity. reflexivity.
Qed.

Lemma add_edges_Serialize (es : list Edge) (g : Graph) :
  Forall (fun e => (from e < graph_vertex_count g)%N /\
                   (to e < graph_vertex_count g)%N /\
                   valid_weight (weight e) = true) es ->
  add_edges (map Serialize_Edge es) g
  = Returns (mkGraph (graph_vertex_count g) (graph_edges g ++ es)).
Proof.
  revert g. induction es as [|e es IH]; intros g Hes.
  - cbn. rewrite app_nil_r. destruct g; reflexivity.
  - inversion Hes as [|? ? (Hf & Ht & Hw) Hes']; subst.
    cbn [map add_edges Serialize_Edge pb.from pb.to pb.edge_weight].
    replace (mkEdge (from e) (to e) (weight e)) with e by (destruct e; reflexivity).
    unfold AddEdge, GetVertexCount.
    apply N.ltb_lt in Hf. apply N.ltb_lt in Ht. rewrite Hf, Ht, Hw.
    cbn [negb orb mbind outcome_bind fst].
    rewrite IH by exact Hes'. cbn. rewrite <- app_assoc. reflexivity.
Qed.

Lemma Deserialize_Serialize_Graph g :
  graph_ok g ->
  Deserialize_Graph (pb.mkGraph (graph_vertex_count g) (map Serialize_Edge (graph_edges g)))
  = Returns g.
Proof.
  intros Hok. unfold Deserialize_Graph. cbn [pb.edge pb.vertex_count].
  rewrite add_edges_Serialize by exact Hok.
  destruct g; reflexivity.
Qed.

(** C7.  For every graph [g] (built with a vertex count and [AddEdge]),
    serializing writes [g]'s vertex count and its edges in increasing
    edge-id order; deserializing re-adds them in that order to a graph of
    that vertex count and returns a graph with the same vertex count, the
    same edge count and, for every edge id, the same edge. *)
Theorem graph_roundtrip (g : Graph) :
  graph_ok g ->
  exists object g',
    Serialize_Graph g = Returns object /\
    pb.vertex_count object = GetVertexCount g /\
    length (pb.edge object) = GetEdgeCount g /\
    (forall edge_id e, GetEdge g edge_id = Returns e ->
       pb.edge object !! edge_id = Some (pb.mkEdge (from e) (to e) (weight e))) /\
    Deserialize_Graph object = Returns g' /\
    g' = g /\
    GetVertexCount g' = GetVertexCount g /\
    GetEdgeCount g' = GetEdgeCount g /\
    (forall edge_id, GetEdge g' edge_id = GetEdge g edge_id).
Proof.
  intros Hok.
  exists (pb.mkGraph (graph_vertex_count g) (map Serialize_Edge (graph_edges g))), g.
  split; [apply Serialize_Graph_returns|].
  split; [reflexivity|].
  split; [cbn; apply length_map|].
  split.
  - intros edge_id e He. unfold GetEdge in He. cbn [pb.edge].
    destruct (graph_edges g !! edge_id) as [e'|] eqn:Hl; [|discriminate].
    injection He as ->.
    change (map Serialize_Edge (graph_edges g)) with (Serialize_Edge <$> graph_edges g).
    rewrite list_lookup_fmap, Hl. reflexivity.
  - split; [exact (Deserialize_Serialize_Graph g Hok)|]. auto.
Qed.

Lemma graph_roundtrip_witness :
  exists object g',
    Serialize_Graph abc_graph = Returns object /\
    pb.vertex_count object = GetVertexCount abc_graph /\
    length (pb.edge object) = GetEdgeCount abc_graph /\
    (forall edge_id e, GetEdge abc_graph edge_id = Returns e ->
       pb.edge object !! edge_id = Some (pb.mkEdge (from e) (to e) (weight e))) /\
    Deserialize_Graph object = Returns g' /\
    g' = abc_graph /\
    GetVertexCount g' = GetVertexCount abc_graph /\
    GetEdgeCount g' = GetEdgeCount abc_graph /\
    (forall edge_id, GetEdge g' edge_id = GetEdge abc_graph edge_id).
Proof.
  apply (graph_roundtrip abc_graph).
  unfold graph_ok, abc_graph. cbn.
  repeat constructor.
Defined.

(** ** The whole database: what the decoder accepts *)

Section Database.
Context `{Collaborators}.



(** A parsed stream whose catalogue decodes and whose route table
    decodes yields all three objects. *)
Lemma Deserialize_parsed (input : Stream) database catalogue router_data :
  ParseFromIstream input = Some database ->
  Deserialize_TransportCatalogue (pb.transport_catalogue database) = Returns catalogue ->
  Deserialize_Router (pb.router (pb.transport_router database)) = Returns router_data ->
  Deserialize input =
    Returns (Some (mkDeserializeResult _ catalogue
      (Deserialize_MapRenderer (pb.map_renderer database))
      (TransportRouter_restore
         (Deserialize_RoutingSettings (pb.routing_settings (pb.transport_router database)))
         router_data catalogue))).
Proof.
  intros Hp Hc Hr. unfold Deserialize, Deserialize_TransportRouter.
  rewrite Hp, Hc. cbn. rewrite Hr. reflexivity.
Qed.


(** A row that carries data past the row count stops the decoder from
    returning at all. *)
Lemma Deserialize_not_returning (input : Stream) database :
  ParseFromIstream input = Some database ->
  Deserialize_Router (pb.router (pb.transport_router database)) = Undefined ->
  forall r, Deserialize input <> Returns r.
Proof.
  intros Hp Hr r. unfold Deserialize, Deserialize_TransportRouter. rewrite Hp, Hr.
  destruct (Deserialize_TransportCatalogue (pb.transport_catalogue database));
    cbn; discriminate.
Qed.

End Database.

(** ** Route table: a row that overruns the table *)

Lemma decode_routes_overrun routes from_id to_id (data : RoutesInternalData) row :
  data !! from_id = Some row ->
  (exists k route, routes !! k = Some route /\ pb.has_data route = true /\
                   length row <= to_id + k) ->
  decode_routes routes from_id to_id data = Undefined.
Proof.
  revert to_id data row.
  induction routes as [|route rest IH]; intros to_id data row Hrow (k & r & Hk & Hd & Hlen).
  - discriminate.
  - assert (Hlt : from_id < length data) by (eapply lookup_lt_Some; exact Hrow).
    cbn [decode_routes]. destruct (pb.data route) as [d|] eqn:Hdata.
    + unfold assign. rewrite Hrow.
      destruct (decide (to_id < length row)) as [Hin|Hout]; [|reflexivity].
      cbn [mbind outcome_bind].
      destruct k as [|k]; [lia|].
      apply (IH _ _ (<[to_id:=Some (decode_data d)]> row)).
      * apply list_lookup_insert_eq. exact Hlt.
      * exists k, r. rewrite length_insert. repeat split; [exact Hk|exact Hd|lia].
    + cbn [mbind outcome_bind].
      destruct k as [|k].
      * injection Hk as <-. unfold pb.has_data in Hd. rewrite Hdata in Hd. discriminate.
      * apply (IH _ _ row Hrow). exists k, r. repeat split; [exact Hk|exact Hd|lia].
Qed.

Lemma decode_rows_overrun n rows from_id (data : RoutesInternalData) :
  Forall (fun row => length row = n) data ->
  from_id + length rows <= length data ->
  forallb (row_within n) rows = false ->
  decode_rows rows from_id data = Undefined.
Proof.
  revert from_id data.
  induction rows as [|rl rest IH]; intros from_id data Hn Hlen Hbad.
  - discriminate.
  - cbn [length] in Hlen. cbn [forallb] in Hbad. cbn [decode_rows].
    destruct (lookup_lt_is_Some_2 data from_id ltac:(lia)) as [row Hrow].
    assert (Hrown : length row = n) by (eapply Forall_lookup_1 in Hn; eauto).
    destruct (row_within n rl) eqn:Hrl.
    + apply row_within_fits in Hrl.
      rewrite (decode_routes_fill _ _ _ _ row Hrow).
      2:{ intros k route Hk Hd. rewrite Hrown. simpl. exact (Hrl k route Hk Hd). }
      cbn [mbind outcome_bind].
      apply IH.
      * apply Forall_insert; [exact Hn|]. rewrite fill_row_length. exact Hrown.
      * rewrite length_insert. lia.
      * exact Hbad.
    + rewrite (decode_routes_overrun _ _ _ _ row Hrow); [reflexivity|].
      unfold row_within in Hrl.
      assert (Hex : existsb (fun route => pb.has_data route) (drop n (pb.route rl)) = true).
      { clear -Hrl. induction (drop n (pb.route rl)) as [|a l IHl]; [discriminate|].
        cbn in *. destruct (pb.has_data a); [reflexivity|]. cbn in *. auto. }
      apply existsb_exists in Hex as (route & Hin & Hd).
      apply list_elem_of_In, list_elem_of_lookup in Hin as [k Hk].
      rewrite lookup_drop in Hk.
      exists (n + k), route. repeat split; [exact Hk|exact Hd|lia].
Qed.

(** The decoder returns exactly on the messages whose rows stay within the
    table; on the others its behaviour is undefined. *)
Lemma Deserialize_Router_overrun (object : pb.Router) :
  rows_within object = false -> Deserialize_Router object = Undefined.
Proof.
  intros Hbad. unfold Deserialize_Router.
  apply (decode_rows_overrun (length (pb.route_list object))).
  - apply Forall_replicate. apply length_replicate.
  - rewrite length_replicate. lia.
  - exact Hbad.
Qed.

(** ** Claims about the database codec *)




(** C4, as the code has it.  The serialized [TransportRouter] section is
    made of the routing settings and the route table and of nothing else:
    routers with the same settings and table are written identically
    whatever their graphs, also as whole streams, and the decoder takes
    the graph of the restored router from the catalogue. *)
Theorem transport_router_section_has_no_graph `{Collaborators} :
  (forall tr, Serialize_TransportRouter tr =
     pb.mkTransportRouter (Serialize_RoutingSettings (GetSettings tr))
                          (Serialize_Router (GetRoutesRange (GetRouter tr)))) /\
  (forall tr1 tr2, GetSettings tr1 = GetSettings tr2 -> GetRouter tr1 = GetRouter tr2 ->
     Serialize_TransportRouter tr1 = Serialize_TransportRouter tr2 /\
     forall catalogue map_renderer,
       Serialize catalogue map_renderer tr1 = Serialize catalogue map_renderer tr2) /\
  (forall object catalogue tr,
     Deserialize_TransportRouter object catalogue = Returns tr ->
     GetGraph tr = BuildGraph (GetSettings tr) catalogue).
Proof.
  split; [reflexivity|]. split.
  - intros tr1 tr2 Hs Hr.
    assert (Heq : Serialize_TransportRouter tr1 = Serialize_TransportRouter tr2)
      by (unfold Serialize_TransportRouter; rewrite Hs, Hr; reflexivity).
    split; [exact Heq|]. intros catalogue map_renderer. unfold Serialize.
    rewrite Heq. reflexivity.
  - intros object catalogue tr. unfold Deserialize_TransportRouter.
    destruct (Deserialize_Router (pb.router object)); cbn; try discriminate.
    intros Htr. injection Htr as <-. reflexivity.
Qed.

Lemma transport_router_section_has_no_graph_witness :
  Serialize_TransportRouter abc_router = Serialize_TransportRouter abc_router_slow /\
  forall tr, @Deserialize_TransportRouter stops_only
               (Serialize_TransportRouter abc_router) ["A"; "B"; "C"]%string = Returns tr ->
             GetGraph tr = new_Graph 3.
Proof.
  destruct (@transport_router_section_has_no_graph stops_only) as (_ & Hsame & Hgraph).
  split.
  - apply (Hsame abc_router abc_router_slow); reflexivity.
  - intros tr Htr. apply Hgraph in Htr. exact Htr.
Defined.

(** C4, as stated, fails: two routers over different graphs are written
    to the same section (and to the same stream), so no function restores
    the graph from what is written. *)
Lemma graph_not_in_section :
  GetGraph abc_router <> GetGraph abc_router_slow /\
  Serialize_TransportRouter abc_router = Serialize_TransportRouter abc_router_slow /\
  (forall (C : Collaborators) catalogue map_renderer,
     Serialize catalogue map_renderer abc_router
     = Serialize catalogue map_renderer abc_router_slow) /\
  ~ exists restore : pb.TransportRouter -> Graph,
      forall tr, restore (Serialize_TransportRouter tr) = GetGraph tr.
Proof.
  assert (Hne : GetGraph abc_router <> GetGraph abc_router_slow) by discriminate.
  assert (Heq : Serialize_TransportRouter abc_router = Serialize_TransportRouter abc_router_slow)
    by reflexivity.
  split; [exact Hne|]. split; [exact Heq|]. split.
  - intros C catalogue map_renderer. reflexivity.
  - intros (restore & Hrestore). apply Hne.
    rewrite <- (Hrestore abc_router), <- (Hrestore abc_router_slow), Heq. reflexivity.
Qed.

(** Whatever the collaborators, a parsed stream that carries
    [overlong_router] does not make the decoder return. *)
Lemma overlong_row_never_returns `{Collaborators} (input : Stream) database r :
  ParseFromIstream input = Some database ->
  pb.router (pb.transport_router database) = overlong_router ->
  Deserialize input <> Returns r.
Proof.
  intros Hp Hr. apply (Deserialize_not_returning input database Hp).
  rewrite Hr. apply Deserialize_Router_overrun. reflexivity.
Qed.

(** C5 at its failing input: a parsed database whose route table has one
    row with a second, present entry.  The table is allocated with one
    column, the inner loop runs over both routes and writes
    [data[0][1]]: the decode returns neither the empty optional nor a
    result. *)
Theorem overlong_row_decode_undefined :
  ParseFromIstream (Collaborators := stops_only) (Some (database_with overlong_router))
  = Some (database_with overlong_router) /\
  rows_within overlong_router = false /\
  Deserialize_Router overlong_router = Undefined /\
  @Deserialize stops_only (Some (database_with overlong_router)) = Undefined.
Proof.
  split; [reflexivity|]. split; [reflexivity|].
  split; [apply Deserialize_Router_overrun; reflexivity|].
  unfold Deserialize, Deserialize_TransportRouter. cbn [ParseFromIstream stops_only].
  cbn [Deserialize_TransportCatalogue pb.transport_catalogue database_with
       pb.transport_router pb.router mbind outcome_bind].
  rewrite (Deserialize_Router_overrun overlong_router eq_refl). reflexivity.
Qed.

(** C6.  The decoder of a [TransportRouter] hands the decoded settings,
    the decoded route table and the catalogue to the constructor; the
    router it returns holds that very table, whatever the catalogue, and
    the table of a serialized router comes back as it was saved. *)
Theorem restored_router_holds_saved_table `{Collaborators}
    (object : pb.TransportRouter) (catalogue : Catalogue) :
  (forall router_data, Deserialize_Router (pb.router object) = Returns router_data ->
     Deserialize_TransportRouter object catalogue =
       Returns (TransportRouter_restore
                  (Deserialize_RoutingSettings (pb.routing_settings object))
                  router_data catalogue)) /\
  (forall tr, Deserialize_TransportRouter object catalogue = Returns tr ->
     Deserialize_Router (pb.router object) = Returns (GetRoutesRange (GetRouter tr)) /\
     GetSettings tr = Deserialize_RoutingSettings (pb.routing_settings object)) /\
  (forall catalogue' tr tr',
     Deserialize_TransportRouter object catalogue = Returns tr ->
     Deserialize_TransportRouter object catalogue' = Returns tr' ->
     GetRouter tr' = GetRouter tr /\ GetSettings tr' = GetSettings tr) /\
  (forall saved, square (GetRoutesRange (GetRouter saved)) ->
     exists tr, Deserialize_TransportRouter (Serialize_TransportRouter saved) catalogue
                = Returns tr /\
                GetRouter tr = GetRouter saved /\ GetSettings tr = GetSettings saved).
Proof.
  split; [|split; [|split]].
  - intros router_data Hr. unfold Deserialize_TransportRouter. rewrite Hr. reflexivity.
  - intros tr. unfold Deserialize_TransportRouter.
    destruct (Deserialize_Router (pb.router object)); cbn; try discriminate.
    intros Htr. injection Htr as <-. split; reflexivity.
  - intros catalogue' tr tr'. unfold Deserialize_TransportRouter.
    destruct (Deserialize_Router (pb.router object)); cbn; try discriminate.
    intros Htr Htr'. injection Htr as <-. injection Htr' as <-. split; reflexivity.
  - intros saved Hsq. unfold Deserialize_TransportRouter, Serialize_TransportRouter.
    cbn [pb.router pb.routing_settings].
    rewrite (Deserialize_Serialize_Router _ Hsq). eexists. split; [reflexivity|].
    destruct saved as [[w v] g [t]]. split; reflexivity.
Qed.

Lemma restored_router_holds_saved_table_witness :
  exists tr, @Deserialize_TransportRouter stops_only
               (Serialize_TransportRouter abc_router) ["A"; "B"; "C"]%string = Returns tr /\
             GetRouter tr = GetRouter abc_router /\ GetSettings tr = GetSettings abc_router.
Proof.
  destruct (@restored_router_holds_saved_table stops_only
              (Serialize_TransportRouter abc_router) ["A"; "B"; "C"]%string)
    as (_ & _ & _ & Hsaved).
  apply (Hsaved abc_router).
  unfold square, abc_router, abc_routes. cbn. repeat constructor.
Defined.




(** ** The sphere projector *)

Lemma IsZero_zero s : IsZero (S754_zero s) = true.
Proof. destruct s; reflexivity. Qed.

(** A value that is not a NaN and fails [IsZero] has magnitude at least
    [EPSILON]. *)
Lemma not_IsZero_ge_EPSILON (value : double) :
  IsZero value = false -> is_nan value = false -> dleb EPSILON (dabs value) = true.
Proof.
  destruct value as [s|s| |s m e]; intros Hz Hnan.
  - rewrite IsZero_zero in Hz. discriminate.
  - reflexivity.
  - discriminate.
  - revert Hz. unfold IsZero, dltb, dleb, dabs, SFltb, SFleb, SFabs, SFcompare, EPSILON.
    rewrite (Z.compare_antisym e (-72)).
    destruct (e ?= -72)%Z eqn:He; cbn [CompOpp]; try discriminate; try reflexivity.
    pose proof (Pos.compare_cont_antisym m 4722366482869645 Eq) as Hm.
    cbn [CompOpp] in Hm. rewrite <- Hm.
    destruct (Pos.compare_cont Eq m 4722366482869645); cbn [CompOpp];
      intros; (discriminate || reflexivity).
Qed.

Lemma guarded_zoom_Some extent spread z :
  guarded_zoom extent spread = Some z ->
  IsZero spread = false /\ is_zero spread = false /\ z = ddiv extent spread.
Proof.
  unfold guarded_zoom. destruct (IsZero spread) eqn:Hz; cbn; [discriminate|].
  intros Hs. injection Hs as <-. split; [reflexivity|]. split; [|reflexivity].
  destruct spread as [s| | |]; try reflexivity.
  rewrite IsZero_zero in Hz. discriminate.
Qed.

(** A finite offset scaled by a zero coefficient and moved by the padding
    is the padding. *)
Lemma zero_scaled_offset (offset padding : double) :
  is_finite offset = true -> same_double (dadd (dmul offset dzero) padding) padding.
Proof.
  unfold same_double.
  destruct offset as [[]|s| |[] m e]; try discriminate; intros _;
    destruct padding as [[]|[]| |[] pm pe]; cbn; auto.
Qed.

Lemma make_SphereProjector_zoom first rest max_width max_height padding :
  zoom_coeff_ (make_SphereProjector (first :: rest) max_width max_height padding) =
    match guarded_zoom (dsub max_width (dmul (dconst 2) padding)) (lon_spread first rest),
          guarded_zoom (dsub max_height (dmul (dconst 2) padding)) (lat_spread first rest)
    with
    | Some w, Some h => dmin w h
    | Some w, None => w
    | None, Some h => h
    | None, None => dzero
    end.
Proof.
  unfold make_SphereProjector, lon_spread, lat_spread.
  destruct (minmax_element (fun lhs rhs => dltb (lng lhs) (lng rhs)) first rest).
  destruct (minmax_element (fun lhs rhs => dltb (lat lhs) (lat rhs)) first rest).
  reflexivity.
Qed.

Lemma make_SphereProjector_padding points max_width max_height padding :
  padding_ (make_SphereProjector points max_width max_height padding) = padding.
Proof.
  destruct points as [|first rest]; [reflexivity|].
  unfold make_SphereProjector.
  destruct (minmax_element (fun lhs rhs => dltb (lng lhs) (lng rhs)) first rest).
  destruct (minmax_element (fun lhs rhs => dltb (lat lhs) (lat rhs)) first rest).
  reflexivity.
Qed.

(** Lists, two elements at a time. *)
Lemma list_pair_ind {A} (P : list A -> Prop) :
  P [] -> (forall a, P [a]) -> (forall a b l, P l -> P (a :: b :: l)) -> forall l, P l.
Proof.
  intros Hnil Hone Hpair l.
  enough (Hboth : P l /\ forall a, P (a :: l)) by exact (proj1 Hboth).
  induction l as [|b l [IHl IHal]]; split; auto.
Qed.

(** [minmax_from] and [minmax_element] return elements they were given. *)
Lemma minmax_from_In {A} (comp : A -> A -> bool) range min max :
  In (fst (minmax_from comp min max range)) (min :: range) /\
  In (snd (minmax_from comp min max range)) (max :: range).
Proof.
  revert min max.
  induction range as [|first|first next rest IH] using list_pair_ind; intros min max.
  - cbn. auto.
  - cbn. destruct (comp first min); [cbn; auto|]. destruct (comp first max); cbn; auto.
  - cbn [minmax_from]. destruct (comp next first).
    + destruct (IH (if comp next min then next else min)
                   (if negb (comp first max) then first else max)) as [Hl Hh].
      split.
      * destruct Hl as [Hl|Hl]; [|right; right; right; exact Hl].
        rewrite <- Hl. destruct (comp next min); cbn; auto.
      * destruct Hh as [Hh|Hh]; [|right; right; right; exact Hh].
        rewrite <- Hh. destruct (comp first max); cbn; auto.
    + destruct (IH (if comp first min then first else min)
                   (if negb (comp next max) then next else max)) as [Hl Hh].
      split.
      * destruct Hl as [Hl|Hl]; [|right; right; right; exact Hl].
        rewrite <- Hl. destruct (comp first min); cbn; auto.
      * destruct Hh as [Hh|Hh]; [|right; right; right; exact Hh].
        rewrite <- Hh. destruct (comp next max); cbn; auto.
Qed.

Lemma minmax_element_In {A} (comp : A -> A -> bool) first rest :
  In (fst (minmax_element comp first rest)) (first :: rest) /\
  In (snd (minmax_element comp first rest)) (first :: rest).
Proof.
  destruct rest as [|next rest]; [cbn; auto|]. cbn [minmax_element].
  destruct (comp next first).
  - destruct (minmax_from_In comp rest next first) as [Hl Hh]. split.
    + right. exact Hl.
    + destruct Hh as [Hh|Hh]; [left; exact Hh|right; right; exact Hh].
  - destruct (minmax_from_In comp rest first next) as [Hl Hh]. split.
    + destruct Hl as [Hl|Hl]; [left; exact Hl|right; right; exact Hl].
    + right. exact Hh.
Qed.

(** Rounding leaves a mantissa that is not negative so, and makes no
    NaN. *)
Lemma shr_1_nonneg mrs : (0 <= shr_m mrs)%Z -> (0 <= shr_m (shr_1 mrs))%Z.
Proof. destruct mrs as [m r s]. cbn. destruct m as [|[p|p|]|p]; cbn; lia. Qed.

Lemma iter_shr_1_nonneg p : forall mrs,
  (0 <= shr_m mrs)%Z -> (0 <= shr_m (SpecFloat.iter_pos shr_1 p mrs))%Z.
Proof.
  induction p as [p IH|p IH|]; intros mrs Hm; cbn [SpecFloat.iter_pos].
  - apply IH, IH, shr_1_nonneg, Hm.
  - apply IH, IH, Hm.
  - apply shr_1_nonneg, Hm.
Qed.

Lemma shr_nonneg mrs e n : (0 <= shr_m mrs)%Z -> (0 <= shr_m (fst (shr mrs e n)))%Z.
Proof.
  intros Hm. unfold shr. destruct n as [|p|p]; cbn [fst]; try exact Hm.
  apply iter_shr_1_nonneg, Hm.
Qed.

Lemma shr_fexp_nonneg m e l : (0 <= m)%Z -> (0 <= shr_m (fst (shr_fexp prec emax m e l)))%Z.
Proof.
  intros Hm. unfold shr_fexp. apply shr_nonneg.
  destruct l as [|[]]; exact Hm.
Qed.

Lemma round_nearest_even_nonneg m l : (0 <= m)%Z -> (0 <= round_nearest_even m l)%Z.
Proof. intros Hm. unfold round_nearest_even. destruct l as [|[]]; try lia. destruct (Z.even m); lia. Qed.

Lemma binary_round_aux_number sx mx ex lx :
  (0 <= mx)%Z -> is_nan (binary_round_aux prec emax sx mx ex lx) = false.
Proof.
  intros Hm. unfold binary_round_aux.
  pose proof (shr_fexp_nonneg mx ex lx Hm) as H1.
  destruct (shr_fexp prec emax mx ex lx) as [mrs' e']. cbn [fst] in H1.
  pose proof (shr_fexp_nonneg _ e' loc_Exact
                (round_nearest_even_nonneg _ (loc_of_shr_record mrs') H1)) as H2.
  destruct (shr_fexp prec emax (round_nearest_even (shr_m mrs') (loc_of_shr_record mrs'))
              e' loc_Exact) as [mrs'' e'']. cbn [fst] in H2.
  destruct (shr_m mrs'') as [|m|m]; [reflexivity| |lia].
  destruct (e'' <=? emax - prec)%Z; reflexivity.
Qed.

Lemma binary_normalize_number m e szero :
  is_nan (binary_normalize prec emax m e szero) = false.
Proof.
  unfold binary_normalize. destruct m as [|p|p]; [reflexivity| |];
    unfold binary_round;
    destruct (shl_align p e (fexp prec emax (Z.pos (digits2_pos p) + e))) as [mz ez];
    apply binary_round_aux_number; lia.
Qed.

(** The difference of two finite doubles is a number. *)
Lemma dsub_number (a b : double) :
  is_finite a = true -> is_finite b = true -> is_nan (dsub a b) = false.
Proof.
  unfold dsub, SFsub.
  destruct a as [[]| | |sa ma ea], b as [[]| | |sb mb eb]; try discriminate; intros _ _;
    try reflexivity.
  cbv zeta. apply binary_normalize_number.
Qed.

(** The spreads of a range of finite coordinates are numbers. *)
Lemma spreads_number first rest :
  forallb is_located (first :: rest) = true ->
  is_nan (lon_spread first rest) = false /\ is_nan (lat_spread first rest) = false.
Proof.
  intros Hloc. rewrite forallb_forall in Hloc.
  assert (Hfin : forall c, In c (first :: rest) ->
                   is_finite (lat c) = true /\ is_finite (lng c) = true).
  { intros c Hc. apply andb_prop. exact (Hloc c Hc). }
  unfold lon_spread, lat_spread.
  destruct (minmax_element_In (fun lhs rhs => dltb (lng lhs) (lng rhs)) first rest)
    as [Hleft Hright].
  destruct (minmax_element_In (fun lhs rhs => dltb (lat lhs) (lat rhs)) first rest)
    as [Hbottom Htop].
  destruct (minmax_element (fun lhs rhs => dltb (lng lhs) (lng rhs)) first rest)
    as [left_it right_it].
  destruct (minmax_element (fun lhs rhs => dltb (lat lhs) (lat rhs)) first rest)
    as [bottom_it top_it].
  cbn [fst snd] in *.
  split; apply dsub_number; apply Hfin; assumption.
Qed.

(** C9, as the code has it.  The constructor divides only through the
    guard [!IsZero(spread)]: a divisor is never a zero, never of magnitude
    below [EPSILON] and, unless it is a NaN, of magnitude at least
    [EPSILON]; the spreads of a range whose coordinates are all finite
    are not NaN.  For an empty range, and for a range whose two spreads
    both pass [IsZero], the zoom coefficient stays 0; a projector with
    zoom 0 sends every coordinate whose offsets from [min_lon_] and
    [max_lat_] are finite to (padding, padding), up to the sign of a
    zero. *)
Theorem projector_divisions_guarded :
  (forall first rest max_width max_height padding,
     zoom_coeff_ (make_SphereProjector (first :: rest) max_width max_height padding) =
       match guarded_zoom (dsub max_width (dmul (dconst 2) padding)) (lon_spread first rest),
             guarded_zoom (dsub max_height (dmul (dconst 2) padding)) (lat_spread first rest)
       with
       | Some w, Some h => dmin w h
       | Some w, None => w
       | None, Some h => h
       | None, None => dzero
       end) /\
  (forall extent spread z, guarded_zoom extent spread = Some z ->
     z = ddiv extent spread /\ IsZero spread = false /\ is_zero spread = false /\
     (is_nan spread = false -> dleb EPSILON (dabs spread) = true)) /\
  (forall first rest, forallb is_located (first :: rest) = true ->
     is_nan (lon_spread first rest) = false /\ is_nan (lat_spread first rest) = false) /\
  (forall extent spread, IsZero spread = true -> guarded_zoom extent spread = None) /\
  (forall max_width max_height padding,
     zoom_coeff_ (make_SphereProjector [] max_width max_height padding) = dzero) /\
  (forall first rest max_width max_height padding,
     IsZero (lon_spread first rest) = true -> IsZero (lat_spread first rest) = true ->
     zoom_coeff_ (make_SphereProjector (first :: rest) max_width max_height padding) = dzero) /\
  (forall points max_width max_height padding coords,
     let projector := make_SphereProjector points max_width max_height padding in
     zoom_coeff_ projector = dzero ->
     is_finite (dsub (lng coords) (min_lon_ projector)) = true ->
     is_finite (dsub (max_lat_ projector) (lat coords)) = true ->
     same_double (x (project projector coords)) padding /\
     same_double (y (project projector coords)) padding).
Proof.
  split; [exact make_SphereProjector_zoom|].
  split; [|split; [exact spreads_number|split; [|split; [|split]]]].
  - intros extent spread z Hz.
    destruct (guarded_zoom_Some _ _ _ Hz) as (Hnz & Hnzero & ->).
    repeat split; try assumption.
    intros Hnan. apply not_IsZero_ge_EPSILON; assumption.
  - intros extent spread Hz. unfold guarded_zoom. rewrite Hz. reflexivity.
  - reflexivity.
  - intros first rest max_width max_height padding Hlon Hlat.
    rewrite make_SphereProjector_zoom. unfold guarded_zoom. rewrite Hlon, Hlat. reflexivity.
  - intros points max_width max_height padding coords projector Hzoom Hx Hy.
    unfold project. cbn [x y]. rewrite Hzoom.
    unfold projector at 2 4. rewrite make_SphereProjector_padding.
    split; apply zero_scaled_offset; assumption.
Qed.

Lemma projector_divisions_guarded_witness :
  same_double
    (x (project (make_SphereProjector [mkCoordinates (dconst 55) (dconst 37)]
                   (dconst 600) (dconst 400) (dconst 50))
                (mkCoordinates (dconst 55) (dconst 37))))
    (dconst 50) /\
  dleb EPSILON (dabs (dconst 2)) = true /\
  is_nan (lon_spread moscow [tver; tula]) = false.
Proof.
  destruct projector_divisions_guarded as (_ & Hguard & Hnum & _ & _ & Hboth & Hproj).
  split; [|split].
  - apply (Hproj [mkCoordinates (dconst 55) (dconst 37)] (dconst 600) (dconst 400) (dconst 50)
                 (mkCoordinates (dconst 55) (dconst 37))).
    + apply Hboth; reflexivity.
    + reflexivity.
    + reflexivity.
  - apply (Hguard (dconst 500) (dconst 2) (ddiv (dconst 500) (dconst 2))); reflexivity.
  - apply (Hnum moscow [tver; tula]). reflexivity.
Defined.

(** C9, as stated, fails on doubles that are not numbers.  With an empty
    range and padding 50 the coordinate (NaN, NaN) is projected to
    (NaN, NaN); and for the one-point range (NaN, NaN) the spread is a
    NaN, which passes the guard and is divided by although its magnitude
    is not at least [EPSILON]; so it is for a NaN between two finite
    points, where the zoom coefficient becomes a NaN. *)
Lemma nan_escapes_projector :
  zoom_coeff_ (make_SphereProjector [] (dconst 600) (dconst 400) (dconst 50)) = dzero /\
  project (make_SphereProjector [] (dconst 600) (dconst 400) (dconst 50))
          (mkCoordinates S754_nan S754_nan)
  = mkPoint S754_nan S754_nan /\
  ~ same_double S754_nan (dconst 50) /\
  lon_spread (mkCoordinates S754_nan S754_nan) [] = S754_nan /\
  guarded_zoom (dconst 500) (lon_spread (mkCoordinates S754_nan S754_nan) [])
  = Some (ddiv (dconst 500) S754_nan) /\
  dleb EPSILON (dabs (lon_spread (mkCoordinates S754_nan S754_nan) [])) = false /\
  zoom_coeff_ (make_SphereProjector
                 [mkCoordinates (dconst 1) (dconst 1); mkCoordinates S754_nan S754_nan;
                  mkCoordinates dzero dzero]
                 (dconst 600) (dconst 400) (dconst 50))
  = S754_nan.
Proof.
  split; [reflexivity|]. split; [reflexivity|]. split.
  - intros [H|[H _]]; discriminate H.
  - split; [reflexivity|]. split; [reflexivity|]. split; reflexivity.
Qed.

(** ** Route colours *)

Lemma palette_color_in_range (color_palette : list Color) index :
  color_palette <> [] ->
  exists color, color_palette !! (index mod length color_palette) = Some color /\
                palette_color color_palette index (length color_palette) = Returns color.
Proof.
  intros Hne. unfold palette_color.
  assert (Hpos : length color_palette <> 0) by (destruct color_palette; [congruence|discriminate]).
  rewrite decide_False by exact Hpos.
  destruct (lookup_lt_is_Some_2 color_palette (index mod length color_palette))
    as [color Hc]; [apply Nat.mod_upper_bound; exact Hpos|].
  exists color. rewrite Hc. split; reflexivity.
Qed.

Lemma back_of_front {A} (v : list A) a : front v = Returns a -> exists b, back v = Returns b.
Proof.
  destruct v as [|a0 v]; [discriminate|]. intros _. unfold back.
  destruct (last (a0 :: v)) as [b|] eqn:Hl; [eauto|].
  apply last_None in Hl. discriminate.
Qed.

(** The loop draws one line per bus, in the order of the range, the
    [n]-th in the palette colour of index [(index + n) mod nums]. *)
Lemma RenderRoutes_from_lines settings_ projector buses index document route_names :
  color_palette settings_ <> [] ->
  Forall (fun bus => stops bus <> []) buses ->
  exists lines names,
    RenderRoutes_from settings_ (length (color_palette settings_)) projector buses index
                      document route_names
    = Returns (document ++ lines, route_names ++ names) /\
    length lines = length buses /\
    forall n bus, buses !! n = Some bus ->
      exists color,
        color_palette settings_ !! ((index + n) mod length (color_palette settings_))
        = Some color /\
        lines !! n = Some (RouteLine bus color projector).
Proof.
  intros Hne. revert index document route_names.
  induction buses as [|bus0 rest IH]; intros index document route_names Hstops.
  - exists [], []. cbn. rewrite !app_nil_r. split; [reflexivity|]. split; [reflexivity|].
    intros n bus Hn. discriminate.
  - inversion Hstops as [|? ? Hs0 Hrest]; subst.
    destruct (palette_color_in_range (color_palette settings_) index Hne) as (color & Hc & Hp).
    cbn [RenderRoutes_from]. rewrite Hp. cbn [mbind outcome_bind].
    destruct (stops bus0) as [|first_stop more] eqn:Hst; [congruence|].
    cbn [front mbind outcome_bind].
    destruct (back_of_front (first_stop :: more) first_stop eq_refl) as (last_stop & Hb).
    rewrite Hb. cbn [mbind outcome_bind].
    match goal with
    | |- context [RenderRoutes_from _ _ _ rest (S index) ?d ?r] =>
        destruct (IH (S index) d r Hrest) as (lines & names & Hrun & Hlen & Hall);
        rewrite Hrun
    end.
    exists (RouteLine bus0 color projector :: lines).
    exists (RouteName (project projector (coordinates (snd first_stop))) color
                      (bus_name bus0)
            :: (if negb (is_roundtrip bus0) && other_stop first_stop last_stop
                then [RouteName (project projector (coordinates (snd last_stop))) color
                                (bus_name bus0)]
                else [])
            ++ names).
    split.
    + rewrite <- app_assoc. cbn [app]. f_equal. f_equal.
      destruct (negb (is_roundtrip bus0) && other_stop first_stop last_stop);
        rewrite <- !app_assoc; reflexivity.
    + split; [cbn; lia|].
      intros [|n] bus Hn.
      * cbn in Hn. injection Hn as <-. exists color. rewrite Nat.add_0_r. auto.
      * cbn in Hn. destruct (Hall n bus Hn) as (c & Hc' & Hl).
        exists c. replace (index + S n) with (S index + n) by lia. auto.
Qed.

(** C10.  With a non-empty palette [RenderRoutes] draws the [n]-th bus of
    any range (of buses that have stops) in the colour
    [color_palette[n mod palette_size]]; the index it computes is in range
    for every counter value exactly when the palette is non-empty; with an
    empty palette and at least one bus the modulo by zero makes
    [RenderRoutes], and [RenderMap] which hands its range on, undefined,
    while an empty range is drawn whatever the palette. *)
Theorem route_colors_cycle_through_palette (settings_ : RenderSettings) :
  (color_palette settings_ <> [] ->
   forall buses projector,
     Forall (fun bus => stops bus <> []) buses ->
     exists document, RenderRoutes settings_ buses projector [] = Returns document /\
       forall n bus, buses !! n = Some bus ->
         exists color,
           color_palette settings_ !! (n mod length (color_palette settings_)) = Some color /\
           document !! n = Some (RouteLine bus color projector)) /\
  ((forall index, exists color,
      palette_color (color_palette settings_) index (length (color_palette settings_))
      = Returns color)
   <-> color_palette settings_ <> []) /\
  (color_palette settings_ = [] ->
   forall buses, buses <> [] ->
     (forall projector document,
        RenderRoutes settings_ buses projector document = Undefined) /\
     (forall stop_set, RenderMap settings_ stop_set buses = Undefined)) /\
  (forall projector stop_set,
     RenderRoutes settings_ [] projector [] = Returns [] /\
     RenderMap settings_ stop_set [] =
       Returns (RenderStops settings_ (stop_set [])
                  (make_SphereProjector (map coordinates (stop_set []))
                     (width settings_) (height settings_) (padding settings_)) [])).
Proof.
  split; [|split; [|split]].
  - intros Hne buses projector Hstops.
    destruct (RenderRoutes_from_lines settings_ projector buses 0 [] [] Hne Hstops)
      as (lines & names & Hrun & Hlen & Hall).
    exists (lines ++ names). unfold RenderRoutes. rewrite Hrun. cbn.
    split; [reflexivity|].
    intros n bus Hn. destruct (Hall n bus Hn) as (color & Hc & Hl).
    exists color. split; [exact Hc|].
    rewrite lookup_app_l by (rewrite Hlen; eapply lookup_lt_Some; exact Hn). exact Hl.
  - split.
    + intros Hall Hempty. destruct (Hall 0) as (color & Hc).
      rewrite Hempty in Hc. discriminate.
    + intros Hne index.
      destruct (palette_color_in_range _ index Hne) as (color & _ & Hp). eauto.
  - intros Hempty buses Hbuses.
    assert (Hroutes : forall projector document,
              RenderRoutes settings_ buses projector document = Undefined).
    { intros projector document. unfold RenderRoutes. rewrite Hempty.
      destruct buses as [|bus rest]; [congruence|]. reflexivity. }
    split; [exact Hroutes|].
    intros stop_set. unfold RenderMap. rewrite Hroutes. reflexivity.
  - intros projector stop_set. split; reflexivity.
Qed.

Lemma route_colors_cycle_through_palette_witness :
  (exists document,
     RenderRoutes (settings_with red_green) three_buses
                  (make_SphereProjector [] dzero dzero dzero) [] = Returns document /\
     exists bus, three_buses !! 2 = Some bus /\
       document !! 2
       = Some (RouteLine bus (ColorName "red") (make_SphereProjector [] dzero dzero dzero))) /\
  RenderMap (settings_with []) (first_seen []) three_buses = Undefined.
Proof.
  destruct (route_colors_cycle_through_palette (settings_with red_green))
    as (Hcycle & _ & _ & _).
  destruct (route_colors_cycle_through_palette (settings_with []))
    as (_ & _ & Hempty & _).
  split.
  - destruct (Hcycle ltac:(discriminate) three_buses
                (make_SphereProjector [] dzero dzero dzero))
      as (document & Hd & Hall).
    + unfold three_buses. repeat constructor; discriminate.
    + exists document. split; [exact Hd|].
      destruct (three_buses !! 2) as [bus|] eqn:Hbus; [|discriminate].
      exists bus. split; [reflexivity|].
      destruct (Hall 2 bus Hbus) as (color & Hc & Hdoc).
      cbn in Hc. injection Hc as <-. exact Hdoc.
  - apply (Hempty eq_refl three_buses); discriminate.
Defined.

(** * Further properties of the codec *)

(** ** Colours and render settings *)

Lemma to_uint8_id v : is_uint8 v = true -> to_uint8 v = v.
Proof.
  unfold is_uint8, to_uint8. intros Hv. apply N.ltb_lt in Hv.
  apply N.mod_small. exact Hv.
Qed.

Lemma to_uint8_bound v : is_uint8 (to_uint8 v) = true.
Proof. unfold is_uint8, to_uint8. apply N.ltb_lt. apply N.mod_lt. discriminate. Qed.

Lemma Deserialize_Serialize_Color (color : Color) :
  Color_ok color = true -> Deserialize_Color (Serialize_Color color) = color.
Proof.
  destruct color as [s|[r g b]|[r g b o]]; cbn; intros Hok.
  - reflexivity.
  - apply andb_prop in Hok as [Hrg Hb]. apply andb_prop in Hrg as [Hr Hg].
    unfold Deserialize_Rgb. cbn. rewrite !to_uint8_id by assumption. reflexivity.
  - apply andb_prop in Hok as [Hrg Hb]. apply andb_prop in Hrg as [Hr Hg].
    unfold Deserialize_Rgba. cbn. rewrite !to_uint8_id by assumption. reflexivity.
Qed.

Lemma Deserialize_Color_ok (object : pb.Color) : Color_ok (Deserialize_Color object) = true.
Proof.
  unfold Deserialize_Color.
  destruct (pb.rgba object) as [c|]; [|destruct (pb.rgb object) as [c|]]; cbn;
    rewrite ?to_uint8_bound; reflexivity.
Qed.

(** A colour with [uint8_t] channels survives encoding and decoding, and
    its message has at most one of [rgb] and [rgba] set.  Whatever a
    colour message holds (several alternatives at once, channels past
    255), the colour decoded from it has [uint8_t] channels and comes back
    unchanged after being written out and read again. *)
Theorem Color_roundtrip :
  (forall color, Color_ok color = true ->
     Deserialize_Color (Serialize_Color color) = color /\
     (pb.rgb (Serialize_Color color) = None \/ pb.rgba (Serialize_Color color) = None)) /\
  (forall object,
     Color_ok (Deserialize_Color object) = true /\
     Deserialize_Color (Serialize_Color (Deserialize_Color object))
     = Deserialize_Color object).
Proof.
  split.
  - intros color Hok. split; [exact (Deserialize_Serialize_Color color Hok)|].
    destruct color; cbn; auto.
  - intros object. split; [apply Deserialize_Color_ok|].
    apply Deserialize_Serialize_Color, Deserialize_Color_ok.
Qed.

Lemma Color_roundtrip_witness :
  Deserialize_Color (Serialize_Color (ColorRgba (mkRgba 255 0 128 (dconst 1))))
  = ColorRgba (mkRgba 255 0 128 (dconst 1)) /\
  Deserialize_Color loud_color = ColorRgba (mkRgba 0 255 232 (dconst 1)).
Proof.
  destruct Color_roundtrip as (Hround & _).
  split; [|reflexivity].
  apply (Hround (ColorRgba (mkRgba 255 0 128 (dconst 1)))). reflexivity.
Defined.

Lemma Deserialize_Serialize_Point point : Deserialize_Point (Serialize_Point point) = point.
Proof. destruct point; reflexivity. Qed.

Lemma Deserialize_Serialize_palette (palette : list Color) :
  forallb Color_ok palette = true ->
  map Deserialize_Color (map Serialize_Color palette) = palette.
Proof.
  induction palette as [|c palette IH]; cbn; intros Hok; [reflexivity|].
  apply andb_prop in Hok as [Hc Hp].
  rewrite Deserialize_Serialize_Color by exact Hc. rewrite IH by exact Hp. reflexivity.
Qed.

Lemma Deserialize_Serialize_RenderSettings (render_settings : RenderSettings) :
  RenderSettings_ok render_settings = true ->
  Deserialize_RenderSettings (Serialize_RenderSettings render_settings) = render_settings.
Proof.
  intros Hok. apply andb_prop in Hok as [Hu Hp].
  destruct render_settings. cbn in *.
  unfold Deserialize_RenderSettings, Serialize_RenderSettings. cbn.
  rewrite !Deserialize_Serialize_Point, (Deserialize_Serialize_Color _ Hu),
    (Deserialize_Serialize_palette _ Hp). reflexivity.
Qed.

Lemma Deserialize_Serialize_MapRenderer (map_renderer : MapRenderer) :
  RenderSettings_ok (GetSetings map_renderer) = true ->
  Deserialize_MapRenderer (Serialize_MapRenderer map_renderer) = map_renderer.
Proof.
  intros Hok. destruct map_renderer as [render_settings].
  unfold Deserialize_MapRenderer, Serialize_MapRenderer. cbn in *.
  rewrite Deserialize_Serialize_RenderSettings by exact Hok. reflexivity.
Qed.

Lemma Deserialize_RenderSettings_ok (object : pb.RenderSettings) :
  RenderSettings_ok (Deserialize_RenderSettings object) = true.
Proof.
  unfold RenderSettings_ok, Deserialize_RenderSettings. cbn.
  rewrite Deserialize_Color_ok. cbn.
  induction (pb.color_palette object) as [|c l IH]; cbn; [reflexivity|].
  rewrite Deserialize_Color_ok. exact IH.
Qed.

(** Render settings whose colours have [uint8_t] channels survive
    encoding and decoding: every scalar, both offsets, the underlayer
    colour and the palette in its order; so does the renderer built
    around them. *)
Theorem RenderSettings_roundtrip (render_settings : RenderSettings) :
  RenderSettings_ok render_settings = true ->
  Deserialize_RenderSettings (Serialize_RenderSettings render_settings) = render_settings /\
  Deserialize_MapRenderer (Serialize_MapRenderer (mkMapRenderer render_settings))
  = mkMapRenderer render_settings.
Proof.
  intros Hok. split.
  - exact (Deserialize_Serialize_RenderSettings render_settings Hok).
  - apply Deserialize_Serialize_MapRenderer. exact Hok.
Qed.

Lemma RenderSettings_roundtrip_witness :
  Deserialize_RenderSettings (Serialize_RenderSettings (settings_with red_green))
  = settings_with red_green.
Proof. apply (RenderSettings_roundtrip (settings_with red_green)). reflexivity. Defined.

(** Whatever a [RenderSettings] message holds, the settings decoded from
    it have well-formed colours, keep the palette's length, and come back
    unchanged after being written out and read again. *)
Theorem decoded_RenderSettings_stable (object : pb.RenderSettings) :
  RenderSettings_ok (Deserialize_RenderSettings object) = true /\
  length (color_palette (Deserialize_RenderSettings object))
  = length (pb.color_palette object) /\
  Deserialize_RenderSettings (Serialize_RenderSettings (Deserialize_RenderSettings object))
  = Deserialize_RenderSettings object.
Proof.
  split; [apply Deserialize_RenderSettings_ok|]. split.
  - cbn. apply length_map.
  - apply Deserialize_Serialize_RenderSettings, Deserialize_RenderSettings_ok.
Qed.

(** ** The route table decoder on arbitrary messages and tables *)

Lemma decoded_entry_Serialize (t : RoutesInternalData) from_id to_id :
  decoded_entry (Serialize_Router t) from_id to_id = entry t from_id to_id.
Proof.
  unfold decoded_entry, entry, Serialize_Router, decoded_route. cbn [pb.route_list].
  change (map (fun row => pb.mkRouteList (map Serialize_route row)) t)
    with ((fun row => pb.mkRouteList (map Serialize_route row)) <$> t).
  rewrite list_lookup_fmap.
  destruct (t !! from_id) as [row|]; cbn; [|reflexivity].
  change (map Serialize_route row) with (Serialize_route <$> row).
  rewrite list_lookup_fmap.
  destruct (row !! to_id) as [[r|]|]; cbn; try reflexivity.
  destruct (decode_data_Serialize_route r) as (d & Hd & Hr).
  cbn in Hd. injection Hd as <-. cbn. f_equal. exact Hr.
Qed.

Lemma row_within_Serialize n (row : list (option RouteInternalData)) :
  row_within n (pb.mkRouteList (map Serialize_route row))
  = forallb (fun e => match e with Some _ => false | None => true end) (drop n row).
Proof.
  unfold row_within. cbn [pb.route].
  change (map Serialize_route row) with (Serialize_route <$> row).
  rewrite <- fmap_drop.
  induction (drop n row) as [|e l IH]; cbn; [reflexivity|].
  rewrite IH. destruct e; reflexivity.
Qed.

(** The domain of the route table decoder.  It returns exactly on the
    messages in which no row carries data at a column at or past the row
    count, and then the table is square with one row per [route_list];
    on every other message its behaviour is undefined; it never throws. *)
Theorem Deserialize_Router_domain (object : pb.Router) :
  (rows_within object = true ->
   exists t, Deserialize_Router object = Returns t /\ square t /\
             length t = length (pb.route_list object)) /\
  (rows_within object = false -> Deserialize_Router object = Undefined) /\
  (forall t, Deserialize_Router object = Returns t ->
     rows_within object = true /\ square t /\ length t = length (pb.route_list object)) /\
  (forall e, Deserialize_Router object <> Throws e).
Proof.
  assert (Hcases : (rows_within object = true /\
                    exists t, Deserialize_Router object = Returns t /\ square t /\
                              length t = length (pb.route_list object)) \/
                   (rows_within object = false /\ Deserialize_Router object = Undefined)).
  { destruct (rows_within object) eqn:Hw.
    - left. split; [reflexivity|].
      destruct (Deserialize_Router_within object Hw) as (t & Ht & Hlen & Hsq & _). eauto.
    - right. split; [reflexivity|]. apply Deserialize_Router_overrun. exact Hw. }
  split; [|split; [|split]].
  - intros Hw. destruct Hcases as [(_ & Ht)|(Hw' & _)]; [exact Ht|congruence].
  - intros Hw. destruct Hcases as [(Hw' & _)|(_ & Hu)]; [congruence|exact Hu].
  - intros t Ht. destruct Hcases as [(Hw & t' & Ht' & Hsq & Hlen)|(_ & Hu)].
    + rewrite Ht in Ht'. injection Ht' as ->. auto.
    + rewrite Ht in Hu. discriminate.
  - intros e He. destruct Hcases as [(_ & t & Ht & _)|(_ & Hu)]; congruence.
Qed.

Lemma Deserialize_Router_domain_witness :
  (exists t, Deserialize_Router stray_router = Returns t /\ square t /\
             length t = length (pb.route_list stray_router)) /\
  Deserialize_Router overlong_router = Undefined.
Proof.
  split.
  - apply (Deserialize_Router_domain stray_router). reflexivity.
  - apply (Deserialize_Router_domain overlong_router). reflexivity.
Defined.

(** A table the decoder returns is its own round trip: encoded again and
    decoded again it comes back unchanged. *)
Theorem decoded_table_stable (object : pb.Router) (t : RoutesInternalData) :
  Deserialize_Router object = Returns t ->
  Deserialize_Router (Serialize_Router t) = Returns t.
Proof.
  intros Ht. apply Deserialize_Serialize_Router.
  destruct (rows_within object) eqn:Hw.
  - destruct (Deserialize_Router_within object Hw) as (t' & Ht' & _ & Hsq & _).
    rewrite Ht in Ht'. injection Ht' as ->. exact Hsq.
  - rewrite (Deserialize_Router_overrun object Hw) in Ht. discriminate.
Qed.

Lemma decoded_table_stable_witness :
  Deserialize_Router (Serialize_Router [[None]]) = Returns [[None]].
Proof. apply (decoded_table_stable short_router). reflexivity. Defined.

(** Tables that are not square.  When no row is longer than the number of
    rows, the codec pads: the decoded table is square and agrees with the
    original on every pair.  When some row has a present entry at a
    column at or past the number of rows, decoding what the encoder wrote
    is undefined. *)
Theorem ragged_table_roundtrip (t : RoutesInternalData) :
  (Forall (fun row => length row <= length t) t ->
   exists t', Deserialize_Router (Serialize_Router t) = Returns t' /\
              square t' /\ length t' = length t /\
              forall from_id to_id, entry t' from_id to_id = entry t from_id to_id) /\
  (forall from_id to_id r,
     entry t from_id to_id = Some r -> length t <= to_id ->
     Deserialize_Router (Serialize_Router t) = Undefined).
Proof.
  assert (Hrows : length (pb.route_list (Serialize_Router t)) = length t)
    by (cbn; apply length_map).
  split.
  - intros Hshort.
    assert (Hw : rows_within (Serialize_Router t) = true).
    { unfold rows_within. rewrite Hrows. cbn [Serialize_Router pb.route_list].
      apply forallb_forall. intros rl Hin. apply in_map_iff in Hin as (row & <- & Hin).
      rewrite row_within_Serialize.
      rewrite drop_ge; [reflexivity|].
      rewrite Forall_forall in Hshort. apply Hshort, list_elem_of_In, Hin. }
    destruct (Deserialize_Router_within _ Hw) as (t' & Ht' & Hlen & Hsq & Hentry).
    exists t'. split; [exact Ht'|]. split; [exact Hsq|].
    split; [rewrite Hlen; exact Hrows|].
    intros from_id to_id. rewrite Hentry. apply decoded_entry_Serialize.
  - intros from_id to_id r Hentry Hge.
    apply Deserialize_Router_overrun.
    destruct (rows_within (Serialize_Router t)) eqn:Hw; [exfalso|reflexivity].
    unfold entry in Hentry.
    destruct (t !! from_id) as [row|] eqn:Hrow; [|discriminate]. cbn in Hentry.
    destruct (row !! to_id) as [[r'|]|] eqn:Hr; try discriminate.
    unfold rows_within in Hw. rewrite Hrows in Hw. rewrite forallb_forall in Hw.
    specialize (Hw (pb.mkRouteList (map Serialize_route row))).
    rewrite row_within_Serialize in Hw.
    assert (Hin : In (pb.mkRouteList (map Serialize_route row))
                     (pb.route_list (Serialize_Router t))).
    { cbn. apply in_map_iff. exists row. split; [reflexivity|].
      apply list_elem_of_In. eapply list_elem_of_lookup_2. exact Hrow. }
    specialize (Hw Hin). rewrite forallb_forall in Hw.
    specialize (Hw (Some r')). cbn in Hw.
    assert (Hin' : In (Some r') (drop (length t) row)).
    { apply list_elem_of_In. apply list_elem_of_lookup. exists (to_id - length t).
      rewrite lookup_drop. rewrite <- Hr. f_equal. lia. }
    specialize (Hw Hin'). discriminate.
Qed.

Lemma ragged_table_roundtrip_witness :
  (exists t', Deserialize_Router (Serialize_Router narrow_routes) = Returns t' /\
              square t' /\ length t' = 2 /\
              forall from_id to_id,
                entry t' from_id to_id = entry narrow_routes from_id to_id) /\
  Deserialize_Router (Serialize_Router wide_routes) = Undefined.
Proof.
  split.
  - apply (ragged_table_roundtrip narrow_routes).
    unfold narrow_routes. repeat constructor.
  - apply (proj2 (ragged_table_roundtrip wide_routes) 0 1 (mkRoute (dconst 31) (Some 0%N)));
      [reflexivity|cbn; lia].
Defined.

(** ** The database as a whole *)

Lemma Deserialize_Serialize_RoutingSettings routing_settings :
  Deserialize_RoutingSettings (Serialize_RoutingSettings routing_settings) = routing_settings.
Proof. destruct routing_settings; reflexivity. Qed.

(** Writing a catalogue, a renderer and a router and reading the stream
    back.  If protobuf parses what it wrote, the catalogue codec gives the
    catalogue back, the renderer's colours have [uint8_t] channels and the
    route table is square, then decoding returns a result with that
    catalogue, that renderer, and a router with the same settings and the
    same route table whose graph is the one the builder makes of the
    catalogue; the router is the original one when its graph was built
    that way. *)
Theorem database_roundtrip `{Collaborators} (transport_catalogue : Catalogue)
    (map_renderer : MapRenderer) (transport_router : TransportRouter) :
  ParseFromIstream (Serialize transport_catalogue map_renderer transport_router)
  = Some (pb.mkDatabase (Serialize_TransportCatalogue transport_catalogue)
                        (Serialize_MapRenderer map_renderer)
                        (Serialize_TransportRouter transport_router)) ->
  Deserialize_TransportCatalogue (Serialize_TransportCatalogue transport_catalogue)
  = Returns transport_catalogue ->
  RenderSettings_ok (GetSetings map_renderer) = true ->
  square (GetRoutesRange (GetRouter transport_router)) ->
  exists result,
    Deserialize (Serialize transport_catalogue map_renderer transport_router)
    = Returns (Some result) /\
    result_catalogue result = transport_catalogue /\
    result_map_renderer result = map_renderer /\
    GetSettings (result_transport_router result) = GetSettings transport_router /\
    GetRouter (result_transport_router result) = GetRouter transport_router /\
    GetGraph (result_transport_router result)
    = BuildGraph (GetSettings transport_router) transport_catalogue /\
    (GetGraph transport_router = BuildGraph (GetSettings transport_router) transport_catalogue ->
     result_transport_router result = transport_router).
Proof.
  intros Hp Hc Hok Hsq.
  eexists. split.
  - apply (Deserialize_parsed _ _ transport_catalogue
             (GetRoutesRange (GetRouter transport_router)) Hp).
    + exact Hc.
    + cbn. apply Deserialize_Serialize_Router. exact Hsq.
  - cbn. rewrite Deserialize_Serialize_RoutingSettings.
    rewrite (Deserialize_Serialize_MapRenderer map_renderer Hok).
    destruct transport_router as [s g [t]]. cbn.
    repeat split. intros ->. reflexivity.
Qed.

Lemma database_roundtrip_witness :
  exists result,
    @Deserialize stops_only
      (@Serialize stops_only ["A"; "B"; "C"]%string
         (mkMapRenderer (settings_with red_green)) abc_router)
    = Returns (Some result) /\
    result_catalogue result = ["A"; "B"; "C"]%string /\
    result_map_renderer result = mkMapRenderer (settings_with red_green) /\
    GetRouter (result_transport_router result) = GetRouter abc_router /\
    GetGraph (result_transport_router result) = new_Graph 3.
Proof.
  destruct (@database_roundtrip stops_only ["A"; "B"; "C"]%string
              (mkMapRenderer (settings_with red_green)) abc_router)
    as (result & Hres & Hcat & Hmr & _ & Hrouter & Hgraph & _).
  - reflexivity.
  - reflexivity.
  - reflexivity.
  - unfold square, abc_router, abc_routes. cbn. repeat constructor.
  - exists result. repeat split; assumption.
Defined.

(** * Further properties of the sphere projector *)

Lemma dsub_diag (v : double) : is_finite v = true -> dsub v v = dzero.
Proof.
  destruct v as [[]| | |s m e]; try discriminate; intros _; try reflexivity.
  unfold dsub, SFsub. rewrite Z.min_id. unfold shl_align. rewrite Z.sub_diag.
  cbn [fst]. rewrite ?Z.sub_diag. reflexivity.
Qed.

Lemma dmul_zero_l (v : double) : is_finite v = true -> is_zero (dmul dzero v) = true.
Proof. destruct v as [[]| | |[] m e]; try discriminate; reflexivity. Qed.

Lemma dadd_zero_l (z v : double) : is_zero z = true -> same_double (dadd z v) v.
Proof.
  unfold same_double.
  destruct z as [[]| | |]; try discriminate; intros _;
    destruct v as [[]|[]| |[] m e]; cbn; auto.
Qed.

(** The corner of the map.  For every projector whose [min_lon_],
    [max_lat_] and zoom coefficient are finite, the coordinate
    ([max_lat_], [min_lon_]) is projected to (padding, padding), up to the
    sign of a zero. *)
Theorem corner_projects_to_padding (projector : SphereProjector) :
  is_finite (min_lon_ projector) = true ->
  is_finite (max_lat_ projector) = true ->
  is_finite (zoom_coeff_ projector) = true ->
  let corner := mkCoordinates (max_lat_ projector) (min_lon_ projector) in
  same_double (x (project projector corner)) (padding_ projector) /\
  same_double (y (project projector corner)) (padding_ projector).
Proof.
  intros Hlon Hlat Hzoom corner. unfold project, corner. cbn [x y lat lng].
  rewrite (dsub_diag _ Hlon), (dsub_diag _ Hlat).
  split; apply dadd_zero_l, dmul_zero_l, Hzoom.
Qed.

Lemma corner_projects_to_padding_witness :
  same_double
    (x (project (make_SphereProjector [moscow; tver; tula] (dconst 600) (dconst 400) (dconst 50))
                (mkCoordinates (dconst 56) (dconst 35))))
    (dconst 50).
Proof.
  apply (corner_projects_to_padding
           (make_SphereProjector [moscow; tver; tula] (dconst 600) (dconst 400) (dconst 50)));
    reflexivity.
Defined.

(** [dltb] and [dleb] on numbers, through [dkey]. *)
Lemma dltb_key (a b : double) :
  is_nan a = false -> is_nan b = false ->
  (dltb a b = true <-> key_lt (dkey a) (dkey b)).
Proof.
  unfold dltb, SFltb, SFcompare, key_lt, dkey.
  destruct a as [sa|sa| |sa ma ea], b as [sb|sb| |sb mb eb]; try discriminate; intros _ _;
    try (destruct sa); try (destruct sb); cbn;
    try (split; [discriminate|lia]); try (split; [lia|reflexivity]).
  - destruct (Z.compare_spec ea eb) as [He|He|He];
      [destruct (Pos.compare_spec ma mb) as [Hm|Hm|Hm]| |];
      change (Pos.compare_cont Eq ma mb) with (Pos.compare ma mb);
      cbn; split; intros; try discriminate; try reflexivity; try lia.
    + rewrite (proj2 (Pos.compare_eq_iff ma mb) Hm) in *. cbn in *. discriminate.
    + rewrite (proj2 (Pos.compare_lt_iff ma mb) Hm) in *. cbn in *. discriminate.
    + rewrite (proj2 (Pos.compare_gt_iff ma mb) Hm). reflexivity.
  - destruct (Z.compare_spec ea eb) as [He|He|He];
      [destruct (Pos.compare_spec ma mb) as [Hm|Hm|Hm]| |];
      change (Pos.compare_cont Eq ma mb) with (Pos.compare ma mb);
      cbn; split; intros; try discriminate; try reflexivity; try lia.
    + rewrite (proj2 (Pos.compare_eq_iff ma mb) Hm) in *. cbn in *. discriminate.
    + rewrite (proj2 (Pos.compare_lt_iff ma mb) Hm). reflexivity.
    + rewrite (proj2 (Pos.compare_gt_iff ma mb) Hm) in *. cbn in *. discriminate.
Qed.

Lemma dleb_from_dltb (a b : double) :
  is_nan a = false -> is_nan b = false -> dltb b a = false -> dleb a b = true.
Proof.
  intros Ha Hb Hlt.
  assert (Hk : ~ key_lt (dkey b) (dkey a)).
  { intros Hk. apply (dltb_key b a Hb Ha) in Hk. congruence. }
  destruct (dltb a b) eqn:Hab.
  - unfold dltb, SFltb in Hab. unfold dleb, SFleb.
    destruct (SFcompare a b) as [[]|]; try discriminate; reflexivity.
  - assert (Hk' : ~ key_lt (dkey a) (dkey b)).
    { intros Hk'. apply (dltb_key a b Ha Hb) in Hk'. congruence. }
    revert Hk Hk'. unfold dleb, SFleb, SFcompare, key_lt, dkey.
    destruct a as [sa|sa| |sa ma ea], b as [sb|sb| |sb mb eb]; try discriminate;
      try (destruct sa); try (destruct sb); cbn; intros Hk Hk'; try reflexivity;
      try (exfalso; lia).
    + destruct (Z.compare_spec ea eb) as [He|He|He];
        [destruct (Pos.compare_spec ma mb) as [Hm|Hm|Hm]| |];
        change (Pos.compare_cont Eq ma mb) with (Pos.compare ma mb);
        try (exfalso; lia).
      rewrite (proj2 (Pos.compare_eq_iff ma mb) Hm). reflexivity.
    + destruct (Z.compare_spec ea eb) as [He|He|He];
        [destruct (Pos.compare_spec ma mb) as [Hm|Hm|Hm]| |];
        change (Pos.compare_cont Eq ma mb) with (Pos.compare ma mb);
        try (exfalso; lia).
      rewrite (proj2 (Pos.compare_eq_iff ma mb) Hm). reflexivity.
Qed.

(** Under a comparison that orders the elements at hand (it is the order
    of their keys), nothing compares below the first result of
    [minmax_element] and the second result compares below nothing. *)
Section MinmaxOrdered.
Context {A : Type} (comp : A -> A -> bool) (ok : A -> Prop) (key : A -> Z * Z * Z).
Hypothesis comp_key :
  forall a b, ok a -> ok b -> (comp a b = true <-> key_lt (key a) (key b)).

Lemma comp_true a b : ok a -> ok b -> comp a b = true -> key_lt (key a) (key b).
Proof. intros Ha Hb. apply comp_key; assumption. Qed.

Lemma comp_false a b : ok a -> ok b -> comp a b = false -> ~ key_lt (key a) (key b).
Proof. intros Ha Hb Hc Hk. apply (comp_key a b Ha Hb) in Hk. congruence. Qed.

Lemma comp_false_intro a b : ok a -> ok b -> ~ key_lt (key a) (key b) -> comp a b = false.
Proof.
  intros Ha Hb Hk. destruct (comp a b) eqn:Hc; [|reflexivity].
  exfalso. apply Hk, comp_true; assumption.
Qed.

Ltac by_keys :=
  repeat match goal with
  | H : comp _ _ = true |- _ => apply comp_true in H; [|assumption|assumption]
  | H : comp _ _ = false |- _ => apply comp_false in H; [|assumption|assumption]
  end;
  try (apply comp_false_intro; [assumption|assumption|]);
  repeat match goal with
  | |- context [key ?a] =>
      let k := fresh "k" in set (k := key a) in *; clearbody k; destruct k as [[? ?] ?]
  | H : context [key ?a] |- _ =>
      let k := fresh "k" in set (k := key a) in *; clearbody k; destruct k as [[? ?] ?]
  end;
  unfold key_lt in *; lia.

Lemma minmax_from_bounds range :
  forall min max (seen : A -> Prop),
    ok min -> ok max -> Forall ok range -> comp max min = false ->
    (forall a, seen a -> ok a /\ comp a min = false /\ comp max a = false) ->
    forall a, seen a \/ In a range ->
      comp a (fst (minmax_from comp min max range)) = false /\
      comp (snd (minmax_from comp min max range)) a = false.
Proof.
  induction range as [|first|first next rest IH] using list_pair_ind;
    intros min max seen Hmin Hmax Hrange Hmm Hseen a Ha.
  - cbn. destruct Ha as [Ha|[]]. apply Hseen in Ha. tauto.
  - inversion Hrange as [|? ? Hfirst _]; subst. cbn [minmax_from].
    destruct Ha as [Ha|[->|[]]].
    + destruct (Hseen a Ha) as (Hoka & Ha1 & Ha2).
      destruct (comp first min) eqn:H1; [|destruct (comp first max) eqn:H2];
        cbn [negb fst snd]; split; by_keys.
    + destruct (comp a min) eqn:H1; [|destruct (comp a max) eqn:H2];
        cbn [negb fst snd]; split; by_keys.
  - inversion Hrange as [|? ? Hfirst Hrange']; subst.
    inversion Hrange' as [|? ? Hnext Hrest]; subst.
    cbn [minmax_from]. destruct (comp next first) eqn:Hnf.
    + apply (IH _ _ (fun b => seen b \/ b = first \/ b = next)).
      * destruct (comp next min); assumption.
      * destruct (comp first max); cbn [negb]; assumption.
      * exact Hrest.
      * destruct (comp next min) eqn:H1, (comp first max) eqn:H2; cbn [negb]; by_keys.
      * intros b [Hb|[->| ->]].
        -- destruct (Hseen b Hb) as (Hokb & Hb1 & Hb2). split; [exact Hokb|].
           destruct (comp next min) eqn:H1, (comp first max) eqn:H2; cbn [negb];
             split; by_keys.
        -- split; [exact Hfirst|].
           destruct (comp next min) eqn:H1, (comp first max) eqn:H2; cbn [negb];
             split; by_keys.
        -- split; [exact Hnext|].
           destruct (comp next min) eqn:H1, (comp first max) eqn:H2; cbn [negb];
             split; by_keys.
      * destruct Ha as [Ha|[->|[->|Ha]]]; auto.
    + apply (IH _ _ (fun b => seen b \/ b = first \/ b = next)).
      * destruct (comp first min); assumption.
      * destruct (comp next max); cbn [negb]; assumption.
      * exact Hrest.
      * destruct (comp first min) eqn:H1, (comp next max) eqn:H2; cbn [negb]; by_keys.
      * intros b [Hb|[->| ->]].
        -- destruct (Hseen b Hb) as (Hokb & Hb1 & Hb2). split; [exact Hokb|].
           destruct (comp first min) eqn:H1, (comp next max) eqn:H2; cbn [negb];
             split; by_keys.
        -- split; [exact Hfirst|].
           destruct (comp first min) eqn:H1, (comp next max) eqn:H2; cbn [negb];
             split; by_keys.
        -- split; [exact Hnext|].
           destruct (comp first min) eqn:H1, (comp next max) eqn:H2; cbn [negb];
             split; by_keys.
      * destruct Ha as [Ha|[->|[->|Ha]]]; auto.
Qed.

Lemma minmax_element_bounds first rest :
  ok first -> Forall ok rest ->
  forall a, In a (first :: rest) ->
    comp a (fst (minmax_element comp first rest)) = false /\
    comp (snd (minmax_element comp first rest)) a = false.
Proof.
  intros Hfirst Hrest a Ha.
  destruct rest as [|next rest].
  - destruct Ha as [<-|[]]. cbn. split; by_keys.
  - inversion Hrest as [|? ? Hnext Hrest']; subst. cbn [minmax_element].
    destruct (comp next first) eqn:Hnf.
    + apply (minmax_from_bounds rest next first (fun b => b = first \/ b = next));
        try assumption.
      * by_keys.
      * intros b [->| ->]; (split; [assumption|]); split; by_keys.
      * destruct Ha as [<-|[<-|Ha]]; auto.
    + apply (minmax_from_bounds rest first next (fun b => b = first \/ b = next));
        try assumption.
      * intros b [->| ->]; (split; [assumption|]); split; by_keys.
      * destruct Ha as [<-|[<-|Ha]]; auto.
Qed.

End MinmaxOrdered.

Lemma make_SphereProjector_bounds first rest max_width max_height padding :
  min_lon_ (make_SphereProjector (first :: rest) max_width max_height padding)
  = lng (fst (minmax_element (fun lhs rhs => dltb (lng lhs) (lng rhs)) first rest)) /\
  max_lat_ (make_SphereProjector (first :: rest) max_width max_height padding)
  = lat (snd (minmax_element (fun lhs rhs => dltb (lat lhs) (lat rhs)) first rest)).
Proof.
  unfold make_SphereProjector.
  destruct (minmax_element (fun lhs rhs => dltb (lng lhs) (lng rhs)) first rest).
  destruct (minmax_element (fun lhs rhs => dltb (lat lhs) (lat rhs)) first rest).
  split; reflexivity.
Qed.

(** The bounds a projector keeps.  [min_lon_] is the longitude of a point
    of the range and [max_lat_] the latitude of one; when no coordinate of
    the range is a NaN, no longitude of the range is below [min_lon_] and
    no latitude above [max_lat_]. *)
Theorem projector_bounds first rest max_width max_height padding :
  let projector := make_SphereProjector (first :: rest) max_width max_height padding in
  (exists west north, In west (first :: rest) /\ In north (first :: rest) /\
     min_lon_ projector = lng west /\ max_lat_ projector = lat north) /\
  (forallb is_number (first :: rest) = true ->
   forall coords, In coords (first :: rest) ->
     dleb (min_lon_ projector) (lng coords) = true /\
     dleb (lat coords) (max_lat_ projector) = true).
Proof.
  intros projector. unfold projector.
  destruct (make_SphereProjector_bounds first rest max_width max_height padding)
    as [-> ->].
  split.
  - exists (fst (minmax_element (fun lhs rhs => dltb (lng lhs) (lng rhs)) first rest)),
           (snd (minmax_element (fun lhs rhs => dltb (lat lhs) (lat rhs)) first rest)).
    split; [exact (proj1 (minmax_element_In _ first rest))|].
    split; [exact (proj2 (minmax_element_In _ first rest))|]. split; reflexivity.
  - intros Hnum coords Hin.
    rewrite forallb_forall in Hnum.
    assert (Hnan : forall c, In c (first :: rest) ->
                     is_nan (lat c) = false /\ is_nan (lng c) = false).
    { intros c Hc. specialize (Hnum c Hc). unfold is_number in Hnum.
      apply andb_prop in Hnum as [Hlat Hlng].
      split; [destruct (is_nan (lat c))|destruct (is_nan (lng c))];
        (discriminate || reflexivity). }
    split.
    + destruct (minmax_element_bounds (fun lhs rhs => dltb (lng lhs) (lng rhs))
                  (fun a => is_nan (lng a) = false) (fun a => dkey (lng a))
                  (fun a b => dltb_key (lng a) (lng b)) first rest)
        with (a := coords) as [Hlo _].
      * apply Hnan. left. reflexivity.
      * apply Forall_forall. intros c Hc. apply Hnan. right. apply list_elem_of_In, Hc.
      * exact Hin.
      * apply dleb_from_dltb; [|apply Hnan, Hin|exact Hlo].
        apply Hnan. exact (proj1 (minmax_element_In _ first rest)).
    + destruct (minmax_element_bounds (fun lhs rhs => dltb (lat lhs) (lat rhs))
                  (fun a => is_nan (lat a) = false) (fun a => dkey (lat a))
                  (fun a b => dltb_key (lat a) (lat b)) first rest)
        with (a := coords) as [_ Hhi].
      * apply Hnan. left. reflexivity.
      * apply Forall_forall. intros c Hc. apply Hnan. right. apply list_elem_of_In, Hc.
      * exact Hin.
      * apply dleb_from_dltb; [apply Hnan, Hin| |exact Hhi].
        apply Hnan. exact (proj2 (minmax_element_In _ first rest)).
Qed.

Lemma projector_bounds_witness :
  dleb (min_lon_ (make_SphereProjector [moscow; tver; tula]
                    (dconst 600) (dconst 400) (dconst 50))) (lng tula) = true /\
  dleb (lat tula) (max_lat_ (make_SphereProjector [moscow; tver; tula]
                    (dconst 600) (dconst 400) (dconst 50))) = true.
Proof.
  apply (projector_bounds moscow [tver; tula] (dconst 600) (dconst 400) (dconst 50)).
  - reflexivity.
  - cbn. auto.
Defined.

Lemma minmax_from_same {A} (comp : A -> A -> bool) (first : A) range :
  Forall (eq first) range -> minmax_from comp first first range = (first, first).
Proof.
  induction range as [|a|a b rest IH] using list_pair_ind; intros Hsame.
  - reflexivity.
  - apply Forall_cons in Hsame as [<- _]. cbn. destruct (comp first first); reflexivity.
  - apply Forall_cons in Hsame as [<- Hsame]. apply Forall_cons in Hsame as [<- Hrest].
    cbn [minmax_from]. destruct (comp first first); cbn [negb]; exact (IH Hrest).
Qed.

Lemma minmax_element_same {A} (comp : A -> A -> bool) (first : A) rest :
  Forall (eq first) rest -> minmax_element comp first rest = (first, first).
Proof.
  intros Hsame. destruct rest as [|next rest]; [reflexivity|].
  apply Forall_cons in Hsame as [<- Hrest]. cbn [minmax_element].
  destruct (comp first first); exact (minmax_from_same comp first rest Hrest).
Qed.

(** A range of one place.  When every point of the range is the same
    place with finite coordinates (a map of a single stop), both spreads
    are zero, no division is made, the zoom coefficient stays 0 and the
    place is projected to (padding, padding), up to the sign of a
    zero. *)
Theorem single_place_projector first rest max_width max_height padding :
  is_located first = true -> Forall (eq first) rest ->
  let projector := make_SphereProjector (first :: rest) max_width max_height padding in
  lon_spread first rest = dzero /\ lat_spread first rest = dzero /\
  zoom_coeff_ projector = dzero /\
  same_double (x (project projector first)) padding /\
  same_double (y (project projector first)) padding.
Proof.
  intros Hloc Hsame projector.
  unfold is_located in Hloc. apply andb_prop in Hloc as [Hlat Hlng].
  assert (Hlon : lon_spread first rest = dzero).
  { unfold lon_spread. rewrite (minmax_element_same _ _ _ Hsame).
    apply dsub_diag, Hlng. }
  assert (Hla : lat_spread first rest = dzero).
  { unfold lat_spread. rewrite (minmax_element_same _ _ _ Hsame).
    apply dsub_diag, Hlat. }
  assert (Hzoom : zoom_coeff_ projector = dzero).
  { unfold projector. rewrite make_SphereProjector_zoom, Hlon, Hla. reflexivity. }
  split; [exact Hlon|]. split; [exact Hla|]. split; [exact Hzoom|].
  unfold project. cbn [x y]. rewrite Hzoom.
  unfold projector. rewrite make_SphereProjector_padding.
  destruct (make_SphereProjector_bounds first rest max_width max_height padding) as [-> ->].
  rewrite !(minmax_element_same _ _ _ Hsame). cbn [fst snd].
  rewrite (dsub_diag _ Hlng), (dsub_diag _ Hlat).
  split; apply zero_scaled_offset; reflexivity.
Qed.

Lemma single_place_projector_witness :
  zoom_coeff_ (make_SphereProjector [moscow; moscow] (dconst 600) (dconst 400) (dconst 50))
  = dzero /\
  same_double
    (x (project (make_SphereProjector [moscow; moscow] (dconst 600) (dconst 400) (dconst 50))
                moscow))
    (dconst 50).
Proof.
  destruct (single_place_projector moscow [moscow] (dconst 600) (dconst 400) (dconst 50))
    as (_ & _ & Hzoom & Hx & _).
  - reflexivity.
  - repeat constructor.
  - split; [exact Hzoom|exact Hx].
Defined.

(** * Further properties of the renderer *)

Lemma labels_cons projector bus color first_stop more last_stop :
  stops bus = first_stop :: more -> back (first_stop :: more) = Returns last_stop ->
  labels projector bus color =
    RouteName (project projector (coordinates (snd first_stop))) color (bus_name bus)
    :: (if negb (is_roundtrip bus) && other_stop first_stop last_stop
        then [RouteName (project projector (coordinates (snd last_stop))) color
                        (bus_name bus)]
        else []).
Proof.
  intros Hst Hb. unfold labels. rewrite Hst. unfold back in Hb.
  destruct (last (first_stop :: more)) as [l|]; [|discriminate].
  injection Hb as ->. reflexivity.
Qed.

(** What the loop of [RenderRoutes] leaves in the document and in the
    list of names. *)
Lemma RenderRoutes_from_shapes settings_ projector buses index document route_names :
  color_palette settings_ <> [] ->
  forallb has_stops buses = true ->
  exists colors,
    length colors = length buses /\
    (forall n color, colors !! n = Some color ->
       color_palette settings_ !! ((index + n) mod length (color_palette settings_))
       = Some color) /\
    RenderRoutes_from settings_ (length (color_palette settings_)) projector buses index
                      document route_names
    = Returns (document ++ zip_with (fun bus color => RouteLine bus color projector)
                                    buses colors,
               route_names ++ concat (zip_with (labels projector) buses colors)).
Proof.
  intros Hne. revert index document route_names.
  induction buses as [|bus rest IH]; intros index document route_names Hstops.
  - exists []. cbn. rewrite !app_nil_r. split; [reflexivity|].
    split; [|reflexivity]. intros n color Hn. discriminate.
  - cbn [forallb] in Hstops. apply andb_prop in Hstops as [Hbus Hrest].
    destruct (palette_color_in_range (color_palette settings_) index Hne) as (color & Hc & Hp).
    cbn [RenderRoutes_from]. rewrite Hp. cbn [mbind outcome_bind].
    unfold has_stops in Hbus.
    destruct (stops bus) as [|first_stop more] eqn:Hst; [discriminate|].
    cbn [front mbind outcome_bind].
    destruct (back_of_front (first_stop :: more) first_stop eq_refl) as (last_stop & Hb).
    rewrite Hb. cbn [mbind outcome_bind].
    match goal with
    | |- context [RenderRoutes_from _ _ _ rest (S index) ?d ?r] =>
        destruct (IH (S index) d r Hrest) as (colors & Hlen & Hcol & Hrun);
        rewrite Hrun
    end.
    exists (color :: colors). split; [cbn; lia|]. split.
    + intros [|n] c Hn.
      * cbn in Hn. injection Hn as <-. rewrite Nat.add_0_r. exact Hc.
      * cbn in Hn. replace (index + S n) with (S index + n) by lia. apply Hcol, Hn.
    + cbn [zip_with concat]. rewrite (labels_cons _ _ _ _ _ _ Hst Hb).
      f_equal. f_equal.
      * rewrite <- app_assoc. reflexivity.
      * destruct (negb (is_roundtrip bus) && other_stop first_stop last_stop);
          rewrite <- !app_assoc; reflexivity.
Qed.

(** A bus without stops makes the loop undefined, whatever the palette. *)
Lemma RenderRoutes_from_no_stops settings_ nums projector buses index document route_names :
  forallb has_stops buses = false ->
  RenderRoutes_from settings_ nums projector buses index document route_names = Undefined.
Proof.
  revert index document route_names.
  induction buses as [|bus rest IH]; intros index document route_names Hstops;
    [discriminate|].
  cbn [RenderRoutes_from].
  destruct (palette_color (color_palette settings_) index nums) as [color| |] eqn:Hp;
    cbn [mbind outcome_bind]; [|unfold palette_color in Hp; repeat case_match; discriminate
                               |reflexivity].
  cbn [forallb] in Hstops. unfold has_stops at 1 in Hstops.
  destruct (stops bus) as [|first_stop more] eqn:Hst; [reflexivity|].
  cbn [front mbind outcome_bind].
  destruct (back_of_front (first_stop :: more) first_stop eq_refl) as (last_stop & Hb).
  rewrite Hb. cbn [mbind outcome_bind]. apply IH. exact Hstops.
Qed.

(** The document [RenderRoutes] produces.  With a non-empty palette and
    buses that all have a stop, it appends to the document one line per
    bus, in the order of the range, and after all the lines the name
    labels of the buses in the same order (one or two per bus); the line
    and the labels of the [n]-th bus are in the palette colour of index
    [n mod palette_size].  A bus has two labels exactly when it is not a
    round trip and its first and last stop pointers differ, whatever the
    names of the stops they point to. *)
Theorem RenderRoutes_document settings_ buses projector document :
  color_palette settings_ <> [] ->
  forallb has_stops buses = true ->
  exists colors,
    length colors = length buses /\
    (forall n color, colors !! n = Some color ->
       color_palette settings_ !! (n mod length (color_palette settings_)) = Some color) /\
    RenderRoutes settings_ buses projector document
    = Returns (document
               ++ zip_with (fun bus color => RouteLine bus color projector) buses colors
               ++ concat (zip_with (labels projector) buses colors)) /\
    (forall n bus color, buses !! n = Some bus -> colors !! n = Some color ->
       1 <= length (labels projector bus color) <= 2) /\
    (forall n bus color first_stop last_stop,
       buses !! n = Some bus ->
       front (stops bus) = Returns first_stop -> back (stops bus) = Returns last_stop ->
       length (labels projector bus color)
       = if negb (is_roundtrip bus) && negb (fst first_stop =? fst last_stop) then 2 else 1).
Proof.
  intros Hne Hstops.
  destruct (RenderRoutes_from_shapes settings_ projector buses 0 document [] Hne Hstops)
    as (colors & Hlen & Hcol & Hrun).
  exists colors. split; [exact Hlen|]. split; [exact Hcol|]. split; [|split].
  - unfold RenderRoutes. rewrite Hrun. cbn. rewrite <- app_assoc. reflexivity.
  - intros n bus color Hbus _.
    rewrite forallb_forall in Hstops.
    assert (Hs : has_stops bus = true).
    { apply Hstops, list_elem_of_In. eapply list_elem_of_lookup_2. exact Hbus. }
    unfold has_stops in Hs. unfold labels.
    destruct (stops bus) as [|first_stop more] eqn:Hst; [discriminate|].
    destruct (last (first_stop :: more)) as [last_stop|] eqn:Hl.
    + destruct (negb (is_roundtrip bus) && other_stop first_stop last_stop); cbn; lia.
    + apply last_None in Hl. discriminate.
  - intros n bus color first_stop last_stop _ Hfront Hback.
    destruct (stops bus) as [|first_stop' more] eqn:Hst; [discriminate|].
    injection Hfront as ->.
    rewrite (labels_cons _ _ _ _ _ _ Hst Hback). unfold other_stop.
    destruct (negb (is_roundtrip bus) && negb (fst first_stop =? fst last_stop));
      reflexivity.
Qed.

Lemma RenderRoutes_document_witness :
  (exists colors,
     colors !! 2 = Some (ColorName "red") /\
     RenderRoutes (settings_with red_green) three_buses
                  (make_SphereProjector [] dzero dzero dzero) []
     = Returns (zip_with (fun bus color =>
                            RouteLine bus color (make_SphereProjector [] dzero dzero dzero))
                         three_buses colors
                ++ concat (zip_with (labels (make_SphereProjector [] dzero dzero dzero))
                                    three_buses colors))) /\
  length (labels (make_SphereProjector [] dzero dzero dzero) twin_ends_bus
                 (ColorName "red")) = 2 /\
  length (labels (make_SphereProjector [] dzero dzero dzero) there_and_back_bus
                 (ColorName "green")) = 1.
Proof.
  split.
  - destruct (RenderRoutes_document (settings_with red_green) three_buses
                (make_SphereProjector [] dzero dzero dzero) [])
      as (colors & Hlen & Hcol & Hrun & _).
    + discriminate.
    + reflexivity.
    + exists colors. split; [|exact Hrun].
      destruct (colors !! 2) as [c|] eqn:Hc.
      * rewrite <- (Hcol 2 c Hc). reflexivity.
      * apply lookup_ge_None in Hc. rewrite Hlen in Hc. cbn in Hc. lia.
  - destruct (RenderRoutes_document (settings_with red_green)
                [twin_ends_bus; there_and_back_bus]
                (make_SphereProjector [] dzero dzero dzero) [])
      as (colors & _ & _ & _ & _ & Hlabels).
    + discriminate.
    + reflexivity.
    + split.
      * exact (Hlabels 0 twin_ends_bus (ColorName "red") (100, stop_A) (300, stop_A)
                 eq_refl eq_refl eq_refl).
      * exact (Hlabels 1 there_and_back_bus (ColorName "green") (100, stop_A) (100, stop_A)
                 eq_refl eq_refl eq_refl).
Defined.

(** The domain of [RenderMap].  It returns on the empty range and, with a
    non-empty palette, on the ranges whose buses all have a stop: the
    document holds the routes first, then the stop circles, then the stop
    names.  On every other range (an empty palette with a bus to draw, or
    a bus without stops) its behaviour is undefined. *)
Theorem RenderMap_domain settings_ stop_set buses :
  let stops := stop_set (bus ← buses; stops bus) in
  let projector :=
    make_SphereProjector (map coordinates stops)
      (width settings_) (height settings_) (padding settings_) in
  (drawable settings_ buses = true ->
   exists routes,
     RenderRoutes settings_ buses projector [] = Returns routes /\
     RenderMap settings_ stop_set buses
     = Returns (routes
                ++ map (fun stop => StopCircle (project projector (coordinates stop))
                                               (stop_radius settings_)) stops
                ++ map (fun stop => StopName (project projector (coordinates stop))
                                             (stop_name stop)) stops)) /\
  (drawable settings_ buses = false -> RenderMap settings_ stop_set buses = Undefined).
Proof.
  intros stops0 projector. unfold drawable. split.
  - intros Hd.
    assert (Hroutes : exists routes,
              RenderRoutes settings_ buses projector [] = Returns routes).
    { destruct buses as [|bus rest]; [exists []; reflexivity|].
      destruct (color_palette settings_) as [|c palette] eqn:Hpal; [discriminate|].
      destruct (RenderRoutes_from_shapes settings_ projector (bus :: rest) 0 [] [])
        as (colors & _ & _ & Hrun); [rewrite Hpal; discriminate|exact Hd|].
      unfold RenderRoutes. rewrite Hpal in *. rewrite Hrun. eexists. reflexivity. }
    destruct Hroutes as (routes & Hroutes). exists routes. split; [exact Hroutes|].
    unfold RenderMap. fold stops0. fold projector. rewrite Hroutes. reflexivity.
  - intros Hd. unfold RenderMap. fold stops0. fold projector.
    destruct buses as [|bus rest]; [discriminate|].
    unfold RenderRoutes.
    destruct (color_palette settings_) as [|c palette] eqn:Hpal.
    + reflexivity.
    + rewrite (RenderRoutes_from_no_stops _ _ _ _ _ _ _ Hd). reflexivity.
Qed.

Lemma RenderMap_domain_witness :
  (exists document, RenderMap (settings_with red_green) (first_seen []) three_buses
                    = Returns document) /\
  RenderMap (settings_with red_green) (first_seen []) (three_buses ++ [no_stop_bus])
  = Undefined.
Proof.
  split.
  - destruct (RenderMap_domain (settings_with red_green) (first_seen []) three_buses)
      as (Hret & _).
    destruct (Hret eq_refl) as (routes & _ & Hmap). eexists. exact Hmap.
  - apply (RenderMap_domain (settings_with red_green) (first_seen [])
             (three_buses ++ [no_stop_bus])). reflexivity.
Defined.

(** * Printing containers *)

Lemma string_app_cons ch (a b : string) : (String ch a ++ b = String ch (a ++ b))%string.
Proof. reflexivity. Qed.

Lemma string_app_assoc (a b c : string) : ((a ++ b) ++ c = a ++ (b ++ c))%string.
Proof.
  induction a as [|ch a IH]; [reflexivity|].
  rewrite !string_app_cons, IH. reflexivity.
Qed.

Lemma string_app_nil_r (a : string) : (a ++ "" = a)%string.
Proof.
  induction a as [|ch a IH]; [reflexivity|]. rewrite string_app_cons, IH. reflexivity.
Qed.

(** After the first element every element is written behind a
    separator. *)
Lemma Print_from_rest {A} (show : A -> string) os (container : list A) :
  Print_from show false os container
  = match container with
    | [] => os
    | _ :: _ => (os ++ ", " ++ String.concat ", " (map show container))%string
    end.
Proof.
  revert os. induction container as [|element rest IH]; intros os; [reflexivity|].
  cbn [Print_from negb]. rewrite IH.
  destruct rest as [|e rest].
  - rewrite string_app_assoc. reflexivity.
  - rewrite !string_app_assoc. reflexivity.
Qed.

(** [Print] writes the elements in order, separated by [", "], with no
    separator before the first or after the last and nothing at all for
    an empty container; a vector is that between brackets, a deque or a
    set between braces, and a map lists its entries as [key: value]. *)
Theorem Print_separates {A} (show : A -> string) (os : string) (container : list A) :
  Print show os container = (os ++ String.concat ", " (map show container))%string /\
  print_vector show os container
  = (os ++ "[" ++ String.concat ", " (map show container) ++ "]")%string /\
  print_braced show os container
  = (os ++ "{" ++ String.concat ", " (map show container) ++ "}")%string /\
  (forall {V} (show_value : V -> string) (entries : list (A * V)),
     print_map show show_value os entries
     = (os ++ "{"
        ++ String.concat ", "
             (map (fun entry => show (fst entry) ++ ": " ++ show_value (snd entry)) entries)
        ++ "}")%string).
Proof.
  assert (HP : forall {B} (sh : B -> string) o (c : list B),
            Print sh o c = (o ++ String.concat ", " (map sh c))%string).
  { intros B sh o c. unfold Print. destruct c as [|element rest].
    - cbn [Print_from map String.concat]. rewrite string_app_nil_r. reflexivity.
    - cbn [Print_from negb]. rewrite Print_from_rest.
      destruct rest as [|e rest]; [reflexivity|].
      rewrite !string_app_assoc. reflexivity. }
  split; [apply HP|]. split; [|split].
  - unfold print_vector. rewrite HP, !string_app_assoc. reflexivity.
  - unfold print_braced. rewrite HP, !string_app_assoc. reflexivity.
  - intros V show_value entries. unfold print_map, print_braced, print_pair.
    rewrite HP, !string_app_assoc. reflexivity.
Qed.

(** * The catalogue codec *)

(** ** Decoding: the indices the decoder uses *)

Section CatalogueDecoder.
Context `{CatalogueOps C D}.

Lemma add_stops_length stops tc all_stops tc' all_stops' :
  add_stops stops tc all_stops = Returns (tc', all_stops') ->
  length all_stops' = length all_stops + length stops.
Proof.
  revert tc all_stops. induction stops as [|stop_raw rest IH]; intros tc all_stops Hret.
  - cbn in Hret. injection Hret as <- <-. cbn. lia.
  - cbn [add_stops] in Hret.
    destruct (AddStop tc _) as [tc1| |]; cbn in Hret; try discriminate.
    destruct (FindStop tc1 _) as [ptr| |]; cbn in Hret; try discriminate.
    apply IH in Hret. rewrite Hret, length_app. cbn. lia.
Qed.

Lemma add_distances_from_within stop_list from_stop entries tc tc' :
  add_distances_from stop_list from_stop entries tc = Returns tc' ->
  forallb (fun entry : nat * D => fst entry <? length stop_list) entries = true.
Proof.
  revert tc. induction entries as [|[to_id distance] rest IH]; intros tc Hret;
    [reflexivity|].
  cbn [add_distances_from] in Hret. unfold at_index in Hret.
  destruct (stop_list !! to_id) as [to_raw|] eqn:Hto; cbn in Hret; [|discriminate].
  destruct (FindStop tc _) as [to_stop| |]; cbn in Hret; try discriminate.
  destruct (SetDistance tc _ _ _) as [tc1| |]; cbn in Hret; try discriminate.
  cbn [forallb fst]. rewrite (IH _ Hret), andb_true_r.
  apply Nat.ltb_lt. eapply lookup_lt_Some. exact Hto.
Qed.

Lemma add_distances_within stop_list stops tc tc' :
  add_distances stop_list stops tc = Returns tc' ->
  forallb (fun stop => forallb (fun entry : nat * D => fst entry <? length stop_list)
                               (map_to_list (pbc.distance stop))) stops = true.
Proof.
  revert tc. induction stops as [|stop rest IH]; intros tc Hret; [reflexivity|].
  cbn [add_distances] in Hret.
  destruct (FindStop tc _) as [from_stop| |]; cbn in Hret; try discriminate.
  destruct (add_distances_from stop_list from_stop _ tc) as [tc1| |] eqn:Hfrom;
    cbn in Hret; try discriminate.
  cbn [forallb]. rewrite (add_distances_from_within _ _ _ _ _ Hfrom), (IH _ Hret).
  reflexivity.
Qed.

Lemma bus_stops_of_within all_stops stop_ids ptrs :
  bus_stops_of all_stops stop_ids = Returns ptrs ->
  forallb (fun stop_id => stop_id <? length all_stops) stop_ids = true.
Proof.
  revert ptrs. induction stop_ids as [|stop_id rest IH]; intros ptrs Hret; [reflexivity|].
  cbn [bus_stops_of] in Hret. unfold at_index in Hret.
  destruct (all_stops !! stop_id) as [ptr|] eqn:Hid; cbn in Hret; [|discriminate].
  destruct (bus_stops_of all_stops rest) as [ptrs'| |]; cbn in Hret; try discriminate.
  cbn [forallb]. rewrite (IH _ eq_refl), andb_true_r.
  apply Nat.ltb_lt. eapply lookup_lt_Some. exact Hid.
Qed.

Lemma add_buses_within all_stops buses tc tc' :
  add_buses all_stops buses tc = Returns tc' ->
  forallb (fun bus => forallb (fun stop_id => stop_id <? length all_stops)
                              (pbc.stop_id bus)) buses = true.
Proof.
  revert tc. induction buses as [|bus rest IH]; intros tc Hret; [reflexivity|].
  cbn [add_buses] in Hret.
  destruct (bus_stops_of all_stops (pbc.stop_id bus)) as [ptrs| |] eqn:Hptrs;
    cbn in Hret; try discriminate.
  destruct (AddBus tc _) as [tc1| |]; cbn in Hret; try discriminate.
  cbn [forallb]. rewrite (bus_stops_of_within _ _ _ Hptrs), (IH _ Hret). reflexivity.
Qed.

Lemma Deserialize_Catalogue_within (object : pbc.TransportCatalogue D) tc :
  Deserialize_Catalogue object = Returns tc -> ids_within object = true.
Proof.
  unfold Deserialize_Catalogue, ids_within. intros Hret.
  destruct (add_stops (pbc.stop_list object) new_catalogue []) as [[tc1 all_stops]| |] eqn:Hs;
    cbn in Hret; try discriminate.
  destruct (add_distances (pbc.stop_list object) (pbc.stop_list object) tc1)
    as [tc2| |] eqn:Hd; cbn in Hret; try discriminate.
  apply add_stops_length in Hs. cbn in Hs.
  rewrite (add_distances_within _ _ _ _ Hd). rewrite <- Hs.
  exact (add_buses_within _ _ _ _ Hret).
Qed.

(** With member functions that return or throw, the loops have defined
    behaviour as long as the indices are in range. *)
Hypothesis AddStop_defined : forall c stop, AddStop c stop <> Undefined.
Hypothesis FindStop_defined : forall c name, FindStop c name <> Undefined.
Hypothesis SetDistance_defined :
  forall c from_stop to_stop distance,
    SetDistance c from_stop to_stop distance <> Undefined.
Hypothesis AddBus_defined : forall c bus, AddBus c bus <> Undefined.

Lemma add_stops_defined stops tc all_stops : add_stops stops tc all_stops <> Undefined.
Proof.
  revert tc all_stops. induction stops as [|stop_raw rest IH]; intros tc all_stops.
  - discriminate.
  - cbn [add_stops].
    destruct (AddStop tc _) as [tc1| |] eqn:Ha; cbn;
      [|discriminate|exfalso; exact (AddStop_defined _ _ Ha)].
    destruct (FindStop tc1 _) as [ptr| |] eqn:Hf; cbn;
      [|discriminate|exfalso; exact (FindStop_defined _ _ Hf)].
    apply IH.
Qed.

Lemma add_distances_from_defined stop_list from_stop entries tc :
  forallb (fun entry : nat * D => fst entry <? length stop_list) entries = true ->
  add_distances_from stop_list from_stop entries tc <> Undefined.
Proof.
  revert tc. induction entries as [|[to_id distance] rest IH]; intros tc Hin.
  - discriminate.
  - cbn [forallb fst] in Hin. apply andb_prop in Hin as [Hto Hrest].
    apply Nat.ltb_lt in Hto.
    destruct (lookup_lt_is_Some_2 stop_list to_id Hto) as [to_raw Hraw].
    cbn [add_distances_from]. unfold at_index. rewrite Hraw. cbn.
    destruct (FindStop tc _) as [to_stop| |] eqn:Hf; cbn;
      [|discriminate|exfalso; exact (FindStop_defined _ _ Hf)].
    destruct (SetDistance tc _ _ _) as [tc1| |] eqn:Hs; cbn;
      [|discriminate|exfalso; exact (SetDistance_defined _ _ _ _ Hs)].
    apply IH, Hrest.
Qed.

Lemma add_distances_defined stop_list stops tc :
  forallb (fun stop => forallb (fun entry : nat * D => fst entry <? length stop_list)
                               (map_to_list (pbc.distance stop))) stops = true ->
  add_distances stop_list stops tc <> Undefined.
Proof.
  revert tc. induction stops as [|stop rest IH]; intros tc Hin.
  - discriminate.
  - cbn [forallb] in Hin. apply andb_prop in Hin as [Hstop Hrest].
    cbn [add_distances].
    destruct (FindStop tc _) as [from_stop| |] eqn:Hf; cbn;
      [|discriminate|exfalso; exact (FindStop_defined _ _ Hf)].
    destruct (add_distances_from stop_list from_stop _ tc) as [tc1| |] eqn:Hfrom; cbn;
      [|discriminate|exfalso; exact (add_distances_from_defined _ _ _ _ Hstop Hfrom)].
    apply IH, Hrest.
Qed.

Lemma bus_stops_of_returns all_stops stop_ids :
  forallb (fun stop_id => stop_id <? length all_stops) stop_ids = true ->
  exists ptrs, bus_stops_of all_stops stop_ids = Returns ptrs.
Proof.
  induction stop_ids as [|stop_id rest IH]; intros Hin.
  - eexists. reflexivity.
  - cbn [forallb] in Hin. apply andb_prop in Hin as [Hid Hrest].
    apply Nat.ltb_lt in Hid.
    destruct (lookup_lt_is_Some_2 all_stops stop_id Hid) as [ptr Hptr].
    cbn [bus_stops_of]. unfold at_index. rewrite Hptr. cbn.
    destruct (IH Hrest) as [ptrs ->]. cbn. eexists. reflexivity.
Qed.

Lemma add_buses_defined all_stops buses tc :
  forallb (fun bus => forallb (fun stop_id => stop_id <? length all_stops)
                              (pbc.stop_id bus)) buses = true ->
  add_buses all_stops buses tc <> Undefined.
Proof.
  revert tc. induction buses as [|bus rest IH]; intros tc Hin.
  - discriminate.
  - cbn [forallb] in Hin. apply andb_prop in Hin as [Hbus Hrest].
    cbn [add_buses].
    destruct (bus_stops_of_returns all_stops _ Hbus) as [ptrs ->]. cbn.
    destruct (AddBus tc _) as [tc1| |] eqn:Ha; cbn;
      [|discriminate|exfalso; exact (AddBus_defined _ _ Ha)].
    apply IH, Hrest.
Qed.

Lemma Deserialize_Catalogue_defined (object : pbc.TransportCatalogue D) :
  ids_within object = true -> Deserialize_Catalogue object <> Undefined.
Proof.
  unfold ids_within, Deserialize_Catalogue. intros Hin.
  apply andb_prop in Hin as [Hd Hb].
  destruct (add_stops (pbc.stop_list object) new_catalogue []) as [[tc1 all_stops]| |] eqn:Hs;
    cbn; [|discriminate|exfalso; exact (add_stops_defined _ _ _ Hs)].
  destruct (add_distances (pbc.stop_list object) (pbc.stop_list object) tc1)
    as [tc2| |] eqn:Hdist; cbn;
    [|discriminate|exfalso; exact (add_distances_defined _ _ _ Hd Hdist)].
  apply add_buses_defined.
  apply add_stops_length in Hs. cbn in Hs. rewrite Hs. exact Hb.
Qed.

End CatalogueDecoder.

(** The indices of the catalogue decoder.  Decoding returns only for a
    message whose stop ids and distance keys are all below its number of
    stops; and for such a message, with member functions that return or
    throw, the decoder's behaviour is defined. *)
Theorem Deserialize_Catalogue_bounds `{CatalogueOps C D} (object : pbc.TransportCatalogue D) :
  (forall tc, Deserialize_Catalogue object = Returns tc -> ids_within object = true) /\
  (ids_within object = false -> forall tc, Deserialize_Catalogue object <> Returns tc) /\
  ((forall c stop, AddStop c stop <> Undefined) ->
   (forall c name, FindStop c name <> Undefined) ->
   (forall c from_stop to_stop distance,
      SetDistance c from_stop to_stop distance <> Undefined) ->
   (forall c bus, AddBus c bus <> Undefined) ->
   ids_within object = true -> Deserialize_Catalogue object <> Undefined).
Proof.
  split; [|split].
  - intros tc. apply Deserialize_Catalogue_within.
  - intros Hout tc Hret. apply Deserialize_Catalogue_within in Hret. congruence.
  - intros Hs Hf Hd Hb. apply Deserialize_Catalogue_defined; assumption.
Qed.

Lemma Deserialize_Catalogue_bounds_witness :
  @Deserialize_Catalogue _ _ list_catalogue_ops stray_bus_msg
  <> Returns (mkListCatalogue [] [] []) /\
  @Deserialize_Catalogue _ _ list_catalogue_ops two_stop_msg <> Undefined.
Proof.
  destruct (@Deserialize_Catalogue_bounds _ _ list_catalogue_ops stray_bus_msg)
    as (_ & Hout & _).
  destruct (@Deserialize_Catalogue_bounds _ _ list_catalogue_ops two_stop_msg)
    as (_ & _ & Hdef).
  split.
  - apply Hout. vm_compute. reflexivity.
  - apply Hdef; try (intros; cbn; discriminate).
    + intros c name. cbn. destruct (position_of name (list_stops c)); discriminate.
    + vm_compute. reflexivity.
Defined.

(** ** Encoding: how stops are numbered *)

Lemma number_stops_list {D} range (m : gmap StopPtr nat) (l : list (pbc.Stop D)) :
  snd (number_stops range m l) = l ++ map (fun p => Serialize_Stop (snd p)) range.
Proof.
  revert m l. induction range as [|[ptr stop] rest IH]; intros m l; cbn [number_stops map].
  - rewrite app_nil_r. reflexivity.
  - rewrite IH, <- app_assoc. reflexivity.
Qed.

Lemma number_stops_other {D} range (m : gmap StopPtr nat) (l : list (pbc.Stop D)) ptr :
  ~ In ptr (map fst range) -> fst (number_stops range m l) !! ptr = m !! ptr.
Proof.
  revert m l. induction range as [|[ptr0 stop] rest IH]; intros m l Hnot;
    cbn [number_stops]; [reflexivity|].
  cbn in Hnot. rewrite IH by tauto.
  apply lookup_insert_ne. intros ->. tauto.
Qed.

Lemma number_stops_lookup {D} range (m : gmap StopPtr nat) (l : list (pbc.Stop D))
    i ptr stop :
  List.NoDup (map fst range) -> range !! i = Some (ptr, stop) ->
  fst (number_stops range m l) !! ptr = Some (length l + i).
Proof.
  revert m l i. induction range as [|[ptr0 stop0] rest IH]; intros m l i Hnd Hi;
    [discriminate|].
  cbn in Hnd. inversion Hnd as [|? ? Hnot Hnd']; subst. cbn [number_stops].
  destruct i as [|i]; cbn in Hi.
  - injection Hi as -> ->. rewrite number_stops_other by exact Hnot.
    rewrite lookup_insert_eq. f_equal. lia.
  - rewrite (IH _ _ i Hnd' Hi). rewrite length_app. cbn. f_equal. lia.
Qed.

Lemma number_stops_bound {D} range (m : gmap StopPtr nat) (l : list (pbc.Stop D)) :
  (forall ptr id, m !! ptr = Some id -> id < length l + length range) ->
  forall ptr id, fst (number_stops range m l) !! ptr = Some id ->
    id < length l + length range.
Proof.
  revert m l. induction range as [|[ptr0 stop0] rest IH]; intros m l Hm ptr id;
    cbn [number_stops]; [apply Hm|].
  intros Hid. cbn [length].
  replace (length l + S (length rest)) with (length (l ++ [@Serialize_Stop D stop0]) + length rest)
    by (rewrite length_app; cbn; lia).
  refine (IH _ _ _ ptr id Hid).
  intros ptr' id' Hl. rewrite length_app. cbn.
  destruct (decide (ptr0 = ptr')) as [->|Hne].
  - rewrite lookup_insert_eq in Hl. injection Hl as <-. lia.
  - rewrite lookup_insert_ne in Hl by exact Hne. specialize (Hm _ _ Hl). cbn in Hm. lia.
Qed.

Lemma id_of_bound {D} range ptr :
  range <> [] ->
  id_of (fst (number_stops (D := D) range ∅ [])) ptr < length range.
Proof.
  intros Hne. unfold id_of.
  destruct (fst (number_stops range ∅ []) !! ptr) as [id|] eqn:Hid; cbn.
  - apply (number_stops_bound (D := D) range ∅ [] ) in Hid; [exact Hid|].
    intros p i Hp. rewrite lookup_empty in Hp. discriminate.
  - destruct range; [congruence|cbn; lia].
Qed.

Lemma stop_core_insert {D} (l : list (pbc.Stop D)) i stop distances :
  l !! i = Some stop ->
  map stop_core (<[i := pbc.mkStop (pbc.name stop) (pbc.lat stop) (pbc.lng stop) distances]> l)
  = map stop_core l.
Proof.
  revert i. induction l as [|a l IH]; intros [|i] Hi; cbn in *; try discriminate.
  - injection Hi as ->. reflexivity.
  - f_equal. apply IH. exact Hi.
Qed.

(** The second loop changes [distance] maps only, and keeps their keys
    below the number of stops. *)
Lemma write_distances_returns {D} entries (m : gmap StopPtr nat) (l : list (pbc.Stop D)) :
  (forall ptr, id_of m ptr < length l) ->
  Forall (fun stop => forall k d, pbc.distance stop !! k = Some d -> k < length l) l ->
  exists l', write_distances entries m l = Returns l' /\
             map stop_core l' = map stop_core l /\
             Forall (fun stop => forall k d, pbc.distance stop !! k = Some d -> k < length l) l'.
Proof.
  revert l. induction entries as [|[[from_stop to_stop] distance] rest IH]; intros l Hid Hkeys.
  - exists l. auto.
  - cbn [write_distances]. unfold set_distance.
    destruct (lookup_lt_is_Some_2 l (id_of m from_stop) (Hid from_stop)) as [stop Hstop].
    rewrite Hstop. cbn [mbind outcome_bind].
    set (l1 := <[id_of m from_stop := _]> l).
    assert (Hlen : length l1 = length l) by apply length_insert.
    destruct (IH l1) as (l' & Hret & Hcore & Hkeys').
    + intros ptr. rewrite Hlen. apply Hid.
    + rewrite Hlen. apply Forall_insert; [exact Hkeys|].
      cbn. intros k d Hk.
      destruct (decide (id_of m to_stop = k)) as [<-|Hne]; [apply Hid|].
      rewrite lookup_insert_ne in Hk by exact Hne.
      eapply Forall_lookup_1 in Hkeys; [|exact Hstop]. exact (Hkeys k d Hk).
    + exists l'. split; [exact Hret|]. split.
      * rewrite Hcore. apply stop_core_insert. exact Hstop.
      * rewrite Hlen in Hkeys'. exact Hkeys'.
Qed.

Lemma keys_below_forallb {D} (m : gmap nat D) n :
  (forall k d, m !! k = Some d -> k < n) ->
  forallb (fun entry : nat * D => fst entry <? n) (map_to_list m) = true.
Proof.
  intros Hm. apply forallb_forall. intros [k d] Hin.
  apply list_elem_of_In, elem_of_map_to_list in Hin.
  apply Nat.ltb_lt. exact (Hm k d Hin).
Qed.

(** How [Serialize] numbers a catalogue.  For a catalogue that has a stop
    (or no distance to write), it returns a message that holds the stops
    of the range in their order, each with its name and coordinates, and
    for every bus its name, its flag and one id per stop, in order: the
    position of that stop in the range, or 0 for a pointer that is not in
    the range.  When the catalogue has a stop, every id and every distance
    key of the message is below the number of stops. *)
Theorem Serialize_Catalogue_numbers {D} (transport_catalogue : CatalogueView D) :
  let range := GetStopsRange transport_catalogue in
  let buses := GetBusesRange transport_catalogue in
  List.NoDup (map fst range) ->
  range <> [] \/ GetStopsDistanceRange transport_catalogue = [] ->
  exists object,
    Serialize_Catalogue transport_catalogue = Returns object /\
    map stop_core (pbc.stop_list object)
    = map (fun p => (stop_name (snd p), lat (coordinates (snd p)), lng (coordinates (snd p))))
          range /\
    length (pbc.bus_list object) = length buses /\
    (forall k bus, buses !! k = Some bus ->
       exists written,
         pbc.bus_list object !! k = Some written /\
         pbc.bus_name written = record_name bus /\
         pbc.is_roundtrip written = record_is_roundtrip bus /\
         length (pbc.stop_id written) = length (record_stops bus) /\
         forall j ptr, record_stops bus !! j = Some ptr ->
           exists id, pbc.stop_id written !! j = Some id /\
             (forall i stop, range !! i = Some (ptr, stop) -> id = i) /\
             (~ In ptr (map fst range) -> id = 0)) /\
    (range <> [] -> ids_within object = true).
Proof.
  intros range buses Hnd Hcan. unfold Serialize_Catalogue. fold range. fold buses.
  destruct (number_stops range ∅ []) as [stop_to_id stop_list] eqn:Hnum.
  assert (Hmap : stop_to_id = fst (number_stops (D := D) range ∅ [])) by (rewrite Hnum; reflexivity).
  assert (Hlist : stop_list = map (fun p => Serialize_Stop (snd p)) range).
  { pose proof (number_stops_list (D := D) range ∅ []) as Hl. rewrite Hnum in Hl. exact Hl. }
  assert (Hlen : length stop_list = length range) by (rewrite Hlist; apply length_map).
  assert (Hwrite : exists l', write_distances (GetStopsDistanceRange transport_catalogue)
                                stop_to_id stop_list = Returns l' /\
                              map stop_core l' = map stop_core stop_list /\
                              (range <> [] ->
                               Forall (fun stop => forall k d, pbc.distance stop !! k = Some d ->
                                                     k < length stop_list) l')).
  { destruct (decide (range = [])) as [Hempty|Hne].
    - destruct Hcan as [Hcan|Hcan]; [congruence|]. rewrite Hcan.
      exists stop_list. cbn. split; [reflexivity|]. split; [reflexivity|]. congruence.
    - destruct (write_distances_returns (GetStopsDistanceRange transport_catalogue)
                  stop_to_id stop_list) as (l' & Hret & Hcore & Hkeys).
      + intros ptr. rewrite Hlen, Hmap. apply id_of_bound. exact Hne.
      + rewrite Hlist. apply Forall_forall. intros stop Hin k d Hk.
        apply list_elem_of_In, in_map_iff in Hin as (p & <- & _).
        cbn in Hk. rewrite lookup_empty in Hk. discriminate.
      + exists l'. auto. }
  destruct Hwrite as (l' & Hret & Hcore & Hkeys). rewrite Hret. cbn [mbind outcome_bind].
  eexists. split; [reflexivity|]. cbn [pbc.stop_list pbc.bus_list].
  split.
  { rewrite Hcore, Hlist, map_map. reflexivity. }
  split; [apply length_map|]. split.
  - intros k bus Hbus. exists (write_bus stop_to_id bus).
    split.
    { change (map (write_bus stop_to_id) buses) with (write_bus stop_to_id <$> buses).
      rewrite list_lookup_fmap, Hbus. reflexivity. }
    split; [reflexivity|]. split; [reflexivity|].
    split; [cbn; apply length_map|].
    intros j ptr Hptr. exists (id_of stop_to_id ptr). split.
    { cbn. change (map (id_of stop_to_id) (record_stops bus))
        with (id_of stop_to_id <$> record_stops bus).
      rewrite list_lookup_fmap, Hptr. reflexivity. }
    split.
    + intros i stop Hi. unfold id_of. rewrite Hmap.
      rewrite (number_stops_lookup range ∅ [] i ptr stop Hnd Hi). reflexivity.
    + intros Hnot. unfold id_of. rewrite Hmap.
      rewrite (number_stops_other range ∅ [] ptr Hnot), lookup_empty. reflexivity.
  - intros Hne. unfold ids_within. cbn [pbc.stop_list pbc.bus_list].
    assert (Hlen' : length l' = length range).
    { rewrite <- Hlen. rewrite <- (length_map stop_core l'), Hcore. apply length_map. }
    rewrite Hlen'. apply andb_true_intro. split.
    + apply forallb_forall. intros stop Hin. apply keys_below_forallb.
      intros k d Hk. specialize (Hkeys Hne). rewrite Forall_forall in Hkeys.
      rewrite <- Hlen. apply (Hkeys stop (proj2 (list_elem_of_In _ _) Hin) k d Hk).
    + apply forallb_forall. intros written Hin.
      apply in_map_iff in Hin as (bus & <- & _). cbn.
      apply forallb_forall. intros id Hid.
      apply in_map_iff in Hid as (ptr & <- & _).
      apply Nat.ltb_lt. rewrite Hmap. apply id_of_bound. exact Hne.
Qed.

Lemma Serialize_Catalogue_numbers_witness :
  exists object,
    Serialize_Catalogue two_stop_view = Returns object /\
    pbc.bus_list object = [pbc.mkBus "14" true [0; 1; 0]] /\
    ids_within object = true.
Proof.
  destruct (Serialize_Catalogue_numbers two_stop_view)
    as (object & Hret & _ & _ & _ & Hin).
  - cbn. repeat constructor; cbn; intuition discriminate.
  - left. discriminate.
  - exists object. split; [exact Hret|]. split; [|apply Hin; discriminate].
    vm_compute in Hret. injection Hret as <-. reflexivity.
Defined.

(** ** Encoding: where distances are filed *)

Lemma distance_at_set {D} (l l1 : list (pbc.Stop D)) from_id to_id distance i j :
  set_distance l from_id to_id distance = Returns l1 ->
  distance_at l1 i j =
    if decide ((i, j) = (from_id, to_id)) then Some distance else distance_at l i j.
Proof.
  unfold set_distance, distance_at.
  destruct (l !! from_id) as [stop|] eqn:Hstop; [|discriminate].
  intros Hret. injection Hret as <-.
  assert (Hlt : from_id < length l) by (eapply lookup_lt_Some; exact Hstop).
  destruct (decide ((i, j) = (from_id, to_id))) as [Heq|Hne].
  - injection Heq as -> ->. rewrite list_lookup_insert_eq by exact Hlt. cbn.
    apply lookup_insert_eq.
  - destruct (decide (i = from_id)) as [->|Hi].
    + rewrite list_lookup_insert_eq by exact Hlt. rewrite Hstop. cbn.
      apply lookup_insert_ne. congruence.
    + rewrite list_lookup_insert_ne by congruence. reflexivity.
Qed.

(** After the second loop a pair of ids holds the distance of the last
    entry filed under it, or what it held before. *)
Lemma write_distances_at {D} entries (m : gmap StopPtr nat) (l l' : list (pbc.Stop D)) :
  write_distances entries m l = Returns l' ->
  (forall i j, ~ In (i, j) (map (entry_ids m) entries) ->
     distance_at l' i j = distance_at l i j) /\
  (forall i j d, distance_at l' i j = Some d ->
     distance_at l i j = Some d \/
     exists entry, In entry entries /\ entry_ids m entry = (i, j) /\ snd entry = d) /\
  (List.NoDup (map (entry_ids m) entries) ->
   forall entry, In entry entries ->
     distance_at l' (fst (entry_ids m entry)) (snd (entry_ids m entry)) = Some (snd entry)).
Proof.
  revert l. induction entries as [|[[from_stop to_stop] distance] rest IH]; intros l Hret.
  - cbn in Hret. injection Hret as <-. split; [auto|]. split; [auto|]. intros _ e [].
  - cbn [write_distances] in Hret.
    destruct (set_distance l (id_of m from_stop) (id_of m to_stop) distance)
      as [l1| |] eqn:Hset; cbn in Hret; try discriminate.
    destruct (IH l1 Hret) as (Hother & Hsound & Hfiled).
    pose proof (fun i j => distance_at_set l l1 _ _ _ i j Hset) as Hat.
    split; [|split].
    + intros i j Hnot. cbn in Hnot. rewrite Hother by tauto. rewrite Hat.
      rewrite decide_False; [reflexivity|]. intros Heq. apply Hnot. left.
      unfold entry_ids. cbn. congruence.
    + intros i j d Hd. destruct (Hsound i j d Hd) as [Hd1|(e & Hin & Hids & He)].
      * rewrite Hat in Hd1.
        destruct (decide ((i, j) = (id_of m from_stop, id_of m to_stop))) as [Heq|Hne].
        -- injection Hd1 as <-. right. exists ((from_stop, to_stop), distance).
           split; [left; reflexivity|]. split; [symmetry; exact Heq|reflexivity].
        -- left. exact Hd1.
      * right. exists e. split; [right; exact Hin|]. auto.
    + intros Hnd e Hin. cbn in Hnd. inversion Hnd as [|? ? Hnot Hnd']; subst.
      destruct Hin as [<-|Hin].
      * cbn. rewrite Hother by exact Hnot. rewrite Hat.
        rewrite decide_True by reflexivity. reflexivity.
      * apply Hfiled; assumption.
Qed.

Lemma id_of_position {D} range ptr i stop :
  List.NoDup (map fst range) -> range !! i = Some (ptr, stop) ->
  id_of (fst (number_stops (D := D) range ∅ [])) ptr = i.
Proof.
  intros Hnd Hi. unfold id_of.
  rewrite (number_stops_lookup range ∅ [] i ptr stop Hnd Hi). reflexivity.
Qed.

Lemma In_range_position (range : list (StopPtr * Stop)) ptr :
  In ptr (map fst range) -> exists i stop, range !! i = Some (ptr, stop).
Proof.
  intros Hin. apply in_map_iff in Hin as ([p stop] & <- & Hin).
  apply list_elem_of_In, list_elem_of_lookup in Hin as [i Hi]. eauto.
Qed.

Lemma entry_ids_NoDup {D} range (entries : list ((StopPtr * StopPtr) * D)) :
  List.NoDup (map fst range) ->
  List.NoDup (map fst entries) ->
  (forall entry, In entry entries ->
     In (fst (fst entry)) (map fst range) /\ In (snd (fst entry)) (map fst range)) ->
  List.NoDup (map (entry_ids (fst (number_stops (D := D) range ∅ []))) entries).
Proof.
  intros Hnd. induction entries as [|e rest IH]; intros Hkeys Hin; [constructor|].
  cbn in Hkeys. inversion Hkeys as [|? ? Hnot Hkeys']; subst.
  cbn [map]. constructor.
  - intros Hdup. apply Hnot. apply in_map_iff in Hdup as (e' & Hids & He').
    apply in_map_iff. exists e'. split; [|exact He'].
    destruct (Hin e (or_introl eq_refl)) as [Hf Ht].
    destruct (Hin e' (or_intror He')) as [Hf' Ht'].
    destruct (In_range_position _ _ Hf) as (i & s1 & Hi).
    destruct (In_range_position _ _ Ht) as (j & s2 & Hj).
    destruct (In_range_position _ _ Hf') as (i' & s1' & Hi').
    destruct (In_range_position _ _ Ht') as (j' & s2' & Hj').
    unfold entry_ids in Hids.
    rewrite (id_of_position range _ _ _ Hnd Hi), (id_of_position range _ _ _ Hnd Hj),
      (id_of_position range _ _ _ Hnd Hi'), (id_of_position range _ _ _ Hnd Hj') in Hids.
    injection Hids as -> ->.
    rewrite Hi in Hi'. rewrite Hj in Hj'.
    destruct e as [[f t] d], e' as [[f' t'] d']. cbn in *. congruence.
  - apply IH; [exact Hkeys'|]. intros e' He'. apply Hin. right. exact He'.
Qed.

(** Where [Serialize] files the distances.  For a catalogue whose distance
    entries are between stops of its range, a returned message records
    under stop [i], key [j], exactly the distance the catalogue has from
    the [i]-th to the [j]-th stop of the range, and no other key.  With a
    distance to write and no stop to file it under, the behaviour is
    undefined. *)
Theorem Serialize_Catalogue_distances {D} (transport_catalogue : CatalogueView D) :
  let range := GetStopsRange transport_catalogue in
  let entries := GetStopsDistanceRange transport_catalogue in
  (List.NoDup (map fst range) ->
   List.NoDup (map fst entries) ->
   (forall entry, In entry entries ->
      In (fst (fst entry)) (map fst range) /\ In (snd (fst entry)) (map fst range)) ->
   forall object, Serialize_Catalogue transport_catalogue = Returns object ->
     (forall from_stop to_stop d i j from_data to_data,
        In ((from_stop, to_stop), d) entries ->
        range !! i = Some (from_stop, from_data) -> range !! j = Some (to_stop, to_data) ->
        distance_at (pbc.stop_list object) i j = Some d) /\
     (forall i j d, distance_at (pbc.stop_list object) i j = Some d ->
        exists from_stop to_stop from_data to_data,
          In ((from_stop, to_stop), d) entries /\
          range !! i = Some (from_stop, from_data) /\
          range !! j = Some (to_stop, to_data))) /\
  (range = [] -> entries <> [] -> Serialize_Catalogue transport_catalogue = Undefined).
Proof.
  intros range entries. split.
  - intros Hnd Hkeys Hin object. unfold Serialize_Catalogue. fold range. fold entries.
    destruct (number_stops range ∅ []) as [stop_to_id stop_list] eqn:Hnum.
    assert (Hmap : stop_to_id = fst (number_stops (D := D) range ∅ []))
      by (rewrite Hnum; reflexivity).
    assert (Hlist : stop_list = map (fun p => Serialize_Stop (snd p)) range).
    { pose proof (number_stops_list (D := D) range ∅ []) as Hl. rewrite Hnum in Hl. exact Hl. }
    destruct (write_distances entries stop_to_id stop_list) as [l'| |] eqn:Hw;
      cbn [mbind outcome_bind]; try discriminate.
    intros Hret. injection Hret as <-. cbn [pbc.stop_list].
    destruct (write_distances_at entries stop_to_id stop_list l' Hw)
      as (_ & Hsound & Hfiled).
    assert (Hfresh : forall i j, distance_at stop_list i j = None).
    { intros i j. unfold distance_at. rewrite Hlist.
      change (map (fun p => Serialize_Stop (snd p)) range)
        with ((fun p => @Serialize_Stop D (snd p)) <$> range).
      rewrite list_lookup_fmap. destruct (range !! i); cbn; [apply lookup_empty|reflexivity]. }
    split.
    + intros from_stop to_stop d i j from_data to_data He Hi Hj.
      specialize (Hfiled (eq_ind_r (fun m => List.NoDup (map (entry_ids m) entries))
                            (entry_ids_NoDup range entries Hnd Hkeys Hin) Hmap)
                         _ He).
      unfold entry_ids in Hfiled. cbn in Hfiled.
      rewrite Hmap in Hfiled.
      rewrite (id_of_position range _ _ _ Hnd Hi), (id_of_position range _ _ _ Hnd Hj)
        in Hfiled. exact Hfiled.
    + intros i j d Hd. destruct (Hsound i j d Hd) as [Hold|(e & He & Hids & <-)].
      * rewrite Hfresh in Hold. discriminate.
      * destruct e as [[from_stop to_stop] d]. destruct (Hin _ He) as [Hf Ht]. cbn in Hf, Ht.
        destruct (In_range_position _ _ Hf) as (i' & from_data & Hi').
        destruct (In_range_position _ _ Ht) as (j' & to_data & Hj').
        unfold entry_ids in Hids. cbn in Hids. rewrite Hmap in Hids.
        rewrite (id_of_position range _ _ _ Hnd Hi'), (id_of_position range _ _ _ Hnd Hj')
          in Hids. injection Hids as -> ->.
        exists from_stop, to_stop, from_data, to_data. auto.
  - intros Hempty Hentries. unfold Serialize_Catalogue. fold range. fold entries.
    rewrite Hempty. cbn [number_stops].
    destruct entries as [|[[from_stop to_stop] d] rest]; [congruence|]. reflexivity.
Qed.

Lemma Serialize_Catalogue_distances_witness :
  (exists object, Serialize_Catalogue two_stop_view = Returns object /\
                  distance_at (pbc.stop_list object) 1 0 = Some 1200%N) /\
  Serialize_Catalogue (mkCatalogueView [] [((100, 200), 1000%N)] []) = Undefined.
Proof.
  split.
  - destruct (Serialize_Catalogue two_stop_view) as [object| |] eqn:Hret;
      [|vm_compute in Hret; discriminate|vm_compute in Hret; discriminate].
    exists object. split; [reflexivity|].
    destruct (Serialize_Catalogue_distances two_stop_view) as (Hfiled & _).
    destruct (Hfiled) with (object := object) as (Hat & _).
    + cbn. repeat constructor; cbn; intuition discriminate.
    + cbn. repeat constructor; cbn; intuition discriminate.
    + cbn. intros entry [<-|[<-|[]]]; cbn; auto.
    + exact Hret.
    + apply (Hat 200 100 1200%N 1 0 stop_B stop_A); cbn; auto.
  - apply (Serialize_Catalogue_distances (mkCatalogueView [] [((100, 200), 1000%N)] []));
      [reflexivity|discriminate].
Defined.
